(** * libsmarter: the counting and disposal engine of [smarter.hpp]

    A shallow embedding of [include/smarter.hpp]: the [counter] with its
    holder chain, the [meta_object] allocation with its two counter bases,
    and the [shared_ptr] / [weak_ptr] handles built on them.

    Conventions of the embedding.
    - [unsigned int] is a 32-bit quantity: counts are [N] and every
      arithmetic result is reduced modulo [2^32].
    - The heap maps the address of a [meta_object] to its contents; a
      [counter *] is the address of one of the two counter bases of a
      [meta_object].  Addresses handed out by [new] are never reused.
    - Code runs in a state-and-failure monad.  [assert] is compiled in: a
      failed assertion ends the run with [AssertFail].  Dereferencing a null
      or dangling pointer ends it with [Undefined].
    - Execution is sequential; the atomic operations are single steps and
      the memory orders carry no meaning here.
    - Every access to a counter field and every allocation, construction,
      destruction and deallocation is appended to a log, so that the order
      and the number of these events can be stated. *)

From stdpp Require Import gmap list strings.

Open Scope N_scope.

(** ** Pointers *)

(** Address of a [meta_object<T>] returned by [new]. *)
Abbreviation addr := nat (only parsing).

(** A [counter *].  [meta_object<T>] derives from
    [crtp_counter<meta_object<T>, dispose_memory>] and from
    [crtp_counter<meta_object<T>, dispose_object>]; [memory_ctr m] and
    [object_ctr m] are the results of the two [static_cast]s of the
    [meta_object] at [m] (the member functions of the same names). *)
Inductive ctr_ptr : Type :=
| memory_ctr (m : addr)
| object_ctr (m : addr).

#[global] Instance ctr_ptr_eq_dec : EqDecision ctr_ptr.
Proof. solve_decision. Defined.

(** The tag types selecting the [dispose] overload. *)
Inductive dispose_tag : Type := dispose_memory | dispose_object.

(** ** Data *)

(** [unsigned int]: 32 bits. *)
Definition uint_modulus : N := 4294967296.

Definition wrap (n : N) : N := n mod uint_modulus.

(** [a - b] on [unsigned int]. *)
Definition uint_sub (a b : N) : N := wrap (a + (uint_modulus - wrap b)).

(** [struct counter]: [counter *_holder; std::atomic<unsigned int> _count]. *)
Record counter : Type := mk_counter {
  _holder : option ctr_ptr;
  _count : N
}.

(** [counter()] *)
Definition counter_default : counter :=
  {| _holder := None; _count := 0 |}.

(** [counter(adopt_rc_t, counter *holder, unsigned int initial_count)] *)
Definition counter_adopt (holder : option ctr_ptr) (initial_count : N) : counter :=
  {| _holder := holder; _count := wrap initial_count |}.

(** [box<T>]: aligned storage, holding a live [T] or not. *)
Definition box (T : Type) : Type := option T.

(** [meta_object<T>]: the two counter bases and the box. *)
Record meta_object (T : Type) : Type := mk_meta_object {
  memory_base : counter;
  object_base : counter;
  _bx : box T
}.
Arguments mk_meta_object {T} _ _ _.
Arguments memory_base {T} _.
Arguments object_base {T} _.
Arguments _bx {T} _.

(** ** Events *)

Inductive event : Type :=
| EvNew (m : addr)              (* operator new returned m *)
| EvConstruct (m : addr)        (* _bx.construct(args...) *)
| EvDestruct (m : addr)         (* _bx.destruct() *)
| EvDelete (m : addr)           (* operator delete on m *)
| EvLoadCount (p : ctr_ptr)     (* _count.load *)
| EvStoreCount (p : ctr_ptr)    (* _count.store *)
| EvFetchAdd (p : ctr_ptr)      (* _count.fetch_add *)
| EvFetchSub (p : ctr_ptr)      (* _count.fetch_sub *)
| EvCas (p : ctr_ptr) (ok : bool) (* _count.compare_exchange_strong *)
| EvLoadHolder (p : ctr_ptr)    (* read of _holder *)
| EvStoreHolder (p : ctr_ptr)   (* write of _holder *)
| EvDispose (p : ctr_ptr).      (* virtual call of dispose() *)

(** ** Machine state and the monad *)

Record state (T : Type) : Type := mk_state {
  heap : gmap nat (meta_object T);
  brk : addr;                   (* next address handed out by new *)
  log : list event
}.
Arguments mk_state {T} _ _ _.
Arguments heap {T} _.
Arguments brk {T} _.
Arguments log {T} _.

Inductive result (A : Type) : Type :=
| Ok (a : A)
| AssertFail
| Undefined
| OutOfFuel.
Arguments Ok {A} _.
Arguments AssertFail {A}.
Arguments Undefined {A}.
Arguments OutOfFuel {A}.

Definition M (T A : Type) : Type := state T -> result (A * state T).

Definition ret {T A : Type} (a : A) : M T A := fun st => Ok (a, st).

Definition bind {T A B : Type} (m : M T A) (f : A -> M T B) : M T B :=
  fun st =>
    match m st with
    | Ok (a, st') => f a st'
    | AssertFail => AssertFail
    | Undefined => Undefined
    | OutOfFuel => OutOfFuel
    end.

Declare Scope smarter_scope.
Delimit Scope smarter_scope with smarter.
Notation "'do' x <- m ; f" := (bind m (fun x => f))
  (at level 10, x name, m at level 100, f at level 200) : smarter_scope.
Notation "m ;; f" := (bind m (fun _ => f))
  (at level 100, f at level 200, right associativity) : smarter_scope.
Open Scope smarter_scope.

Section Primitives.
Context {T : Type}.

(** [assert(b)] *)
Definition assert_ (b : bool) : M T unit :=
  fun st => if b then Ok (tt, st) else AssertFail.

Definition emit (e : event) : M T unit :=
  fun st => Ok (tt, mk_state (heap st) (brk st) (log st ++ [e])).

(** The counter a [counter *] points to, if the allocation is live. *)
Definition ctr_at (p : ctr_ptr) (h : gmap nat (meta_object T)) : option counter :=
  match p with
  | memory_ctr m => memory_base <$> h !! m
  | object_ctr m => object_base <$> h !! m
  end.

Definition set_ctr (p : ctr_ptr) (c : counter) (h : gmap nat (meta_object T))
  : gmap nat (meta_object T) :=
  match p with
  | memory_ctr m => alter (fun o => mk_meta_object c (object_base o) (_bx o)) m h
  | object_ctr m => alter (fun o => mk_meta_object (memory_base o) c (_bx o)) m h
  end.

(** Read the counter behind [p]; a dangling pointer is undefined. *)
Definition deref (p : ctr_ptr) : M T counter :=
  fun st =>
    match ctr_at p (heap st) with
    | Some c => Ok (c, st)
    | None => Undefined
    end.

Definition write (p : ctr_ptr) (c : counter) : M T unit :=
  fun st => Ok (tt, mk_state (set_ctr p c (heap st)) (brk st) (log st)).

(** [_count.load(...)] *)
Definition load_count (p : ctr_ptr) : M T N :=
  do c <- deref p;
  emit (EvLoadCount p);;
  ret (_count c).

(** [_count.store(n, ...)] *)
Definition store_count (p : ctr_ptr) (n : N) : M T unit :=
  do c <- deref p;
  write p (mk_counter (_holder c) (wrap n));;
  emit (EvStoreCount p).

(** [_count.fetch_add(n, ...)]: returns the previous value. *)
Definition fetch_add (p : ctr_ptr) (n : N) : M T N :=
  do c <- deref p;
  write p (mk_counter (_holder c) (wrap (_count c + n)));;
  emit (EvFetchAdd p);;
  ret (_count c).

(** [_count.fetch_sub(n, ...)]: returns the previous value. *)
Definition fetch_sub (p : ctr_ptr) (n : N) : M T N :=
  do c <- deref p;
  write p (mk_counter (_holder c) (uint_sub (_count c) n));;
  emit (EvFetchSub p);;
  ret (_count c).

(** [_count.compare_exchange_strong(expected, desired, ...)]: returns
    whether the exchange happened and the value left in [expected]. *)
Definition compare_exchange_strong (p : ctr_ptr) (expected desired : N)
  : M T (bool * N) :=
  do c <- deref p;
  if N.eqb (_count c) expected then
    write p (mk_counter (_holder c) (wrap desired));;
    emit (EvCas p true);;
    ret (true, expected)
  else
    emit (EvCas p false);;
    ret (false, _count c).

(** Read of the [_holder] field. *)
Definition load_holder (p : ctr_ptr) : M T (option ctr_ptr) :=
  do c <- deref p;
  emit (EvLoadHolder p);;
  ret (_holder c).

(** Write of the [_holder] field. *)
Definition store_holder (p : ctr_ptr) (h : option ctr_ptr) : M T unit :=
  do c <- deref p;
  write p (mk_counter h (_count c));;
  emit (EvStoreHolder p).
End Primitives.

(** ** [struct counter] *)

Section Counter.
Context {T : Type}.

(** [virtual void dispose() = 0]: supplied by the dynamic type of the
    counter. *)
Variable dispose : ctr_ptr -> M T unit.

(** [~counter()] *)
Definition counter_dtor (p : ctr_ptr) : M T unit :=
  do count <- load_count p;
  assert_ (N.eqb count 0).

(** [void setup(adopt_rc_t, counter *holder, unsigned int initial_count)] *)
Definition setup (p : ctr_ptr) (holder : option ctr_ptr) (initial_count : N)
  : M T unit :=
  do count <- load_count p;
  assert_ (N.eqb count 0);;
  store_holder p holder;;
  store_count p initial_count.

(** [counter *holder()] *)
Definition holder (p : ctr_ptr) : M T (option ctr_ptr) :=
  load_holder p.

(** [unsigned int check_count()] *)
Definition check_count (p : ctr_ptr) : M T N :=
  load_count p.

(** [void increment()] *)
Definition increment (p : ctr_ptr) : M T unit :=
  do count <- fetch_add p 1;
  assert_ (negb (N.eqb count 0)).

(** The [do { ... } while(!compare_exchange_strong(...))] loop of
    [increment_if_nonzero], entered with the value of the local [count]. *)
Fixpoint increment_if_nonzero_loop (fuel : nat) (p : ctr_ptr) (count : N)
  : M T bool :=
  match fuel with
  | O => fun _ => OutOfFuel
  | S fuel' =>
      if N.eqb count 0 then ret false
      else
        do r <- compare_exchange_strong p count (count + 1);
        if fst r then ret true
        else increment_if_nonzero_loop fuel' p (snd r)
  end.

(** [bool increment_if_nonzero()] *)
Definition increment_if_nonzero (fuel : nat) (p : ctr_ptr) : M T bool :=
  do count <- load_count p;
  increment_if_nonzero_loop fuel p count.

(** [void decrement()]; [fuel] bounds the depth of the recursion through
    the holders. *)
Fixpoint decrement (fuel : nat) (p : ctr_ptr) : M T unit :=
  match fuel with
  | O => fun _ => OutOfFuel
  | S fuel' =>
      do count <- fetch_sub p 1;
      if N.ltb 1 count then ret tt
      else
        assert_ (N.eqb count 1);;
        do h <- load_holder p;
        emit (EvDispose p);;
        dispose p;;
        match h with
        | Some h' => decrement fuel' h'
        | None => ret tt
        end
  end.
End Counter.

(** ** [struct meta_object<T>] *)

(** A [T *]: the address of the allocation whose box holds the value. *)
Abbreviation obj_ptr := nat (only parsing).

Section MetaObject.
Context {T Args : Type}.

(** [T{std::forward<Args>(args)...}] *)
Variable construct : Args -> T.

(** [operator new]: a fresh address. *)
Definition operator_new : M T addr :=
  fun st =>
    Ok (brk st, mk_state (heap st) (S (brk st)) (log st ++ [EvNew (brk st)])).

(** [_bx.construct(args...)] on the [meta_object] at [m]. *)
Definition box_construct (m : addr) (args : Args) : M T unit :=
  fun st =>
    match heap st !! m with
    | Some o =>
        Ok (tt, mk_state
                  (<[m := mk_meta_object (memory_base o) (object_base o)
                            (Some (construct args))]> (heap st))
                  (brk st) (log st ++ [EvConstruct m]))
    | None => Undefined
    end.

(** [meta_object(unsigned int initial_count, Args &&... args)], run on the
    storage at [m]: the two base initialisers, then the body. *)
Definition meta_object_ctor (m : addr) (initial_count : N) (args : Args)
  : M T unit :=
  (fun st =>
     Ok (tt, mk_state
               (<[m := mk_meta_object
                         (counter_adopt None 1)
                         (counter_adopt (Some (memory_ctr m)) initial_count)
                         None]> (heap st))
               (brk st) (log st)));;
  box_construct m args.

(** [new meta_object<T>{initial_count, args...}] *)
Definition new_meta_object (initial_count : N) (args : Args) : M T addr :=
  do m <- operator_new;
  meta_object_ctor m initial_count args;;
  ret m.
End MetaObject.

Section MetaObjectDispose.
Context {T : Type}.

(** [T *get()]: [_bx.get()]. *)
Definition meta_get (m : addr) : obj_ptr := m.

(** [_bx.destruct()] on the [meta_object] at [m]: runs [~T()] on the value
    in the box; there has to be one. *)
Definition box_destruct (m : addr) : M T unit :=
  fun st =>
    match heap st !! m with
    | Some o =>
        match _bx o with
        | Some _ =>
            Ok (tt, mk_state
                      (<[m := mk_meta_object (memory_base o) (object_base o)
                                None]> (heap st))
                      (brk st) (log st ++ [EvDestruct m]))
        | None => Undefined
        end
    | None => Undefined
    end.

(** [void dispose(dispose_object)] *)
Definition meta_dispose_object (m : addr) : M T unit :=
  box_destruct m.

(** [operator delete] *)
Definition operator_delete (m : addr) : M T unit :=
  fun st =>
    match heap st !! m with
    | Some _ =>
        Ok (tt, mk_state (delete m (heap st)) (brk st) (log st ++ [EvDelete m]))
    | None => Undefined
    end.

(** [void dispose(dispose_memory)]: [delete this].  The implicit
    destructor of [meta_object] destroys the bases in reverse order of
    declaration, each through [~counter()]; [box] has nothing to destroy. *)
Definition meta_dispose_memory (m : addr) : M T unit :=
  counter_dtor (object_ctr m);;
  counter_dtor (memory_ctr m);;
  operator_delete m.

(** The overload of [meta_object::dispose] selected by a tag. *)
Definition meta_dispose (m : addr) (a : dispose_tag) : M T unit :=
  match a with
  | dispose_object => meta_dispose_object m
  | dispose_memory => meta_dispose_memory m
  end.

(** [crtp_counter<D, A>::dispose()]: [static_cast<D *>(this)->dispose(A{})]. *)
Definition crtp_dispose (p : ctr_ptr) : M T unit :=
  match p with
  | memory_ctr m => meta_dispose m dispose_memory
  | object_ctr m => meta_dispose m dispose_object
  end.
End MetaObjectDispose.

(** [p->f(...)] through a possibly null [counter *]. *)
Definition arrow {T A : Type} (p : option ctr_ptr) (f : ctr_ptr -> M T A) : M T A :=
  match p with
  | Some c => f c
  | None => fun _ => Undefined
  end.

(** ** [struct shared_ptr<T, H>] *)

Module shared_ptr.
Record t : Type := mk {
  _object : option obj_ptr;
  _ctr : option ctr_ptr
}.

Section Methods.
Context {T : Type}.

(** [shared_ptr()] and [shared_ptr(std::nullptr_t)] *)
Definition null : t := {| _object := None; _ctr := None |}.

(** [shared_ptr(adopt_rc_t, T *object, counter *ctr)] *)
Definition adopt (object : option obj_ptr) (ctr : option ctr_ptr) : M T t :=
  ret {| _object := object; _ctr := ctr |}.

(** [friend void swap(shared_ptr &x, shared_ptr &y)]: returns the new
    contents of [x] and of [y]. *)
Definition swap (x y : t) : M T (t * t) :=
  ret ({| _object := _object y; _ctr := _ctr y |},
       {| _object := _object x; _ctr := _ctr x |}).

(** [shared_ptr(const shared_ptr &other)] *)
Definition copy (other : t) : M T t :=
  let this := {| _object := _object other; _ctr := _ctr other |} in
  match _ctr this with
  | Some c => increment c;; ret this
  | None => ret this
  end.

(** [shared_ptr(shared_ptr &&other)]: returns the new handle and what is
    left in [other]. *)
Definition move (other : t) : M T (t * t) :=
  swap null other.

(** [shared_ptr(shared_ptr<X, H> other)]: the converting constructor;
    returns the new handle and what is left in the parameter. *)
Definition convert (other : t) : M T (t * t) :=
  ret ({| _object := _object other; _ctr := _ctr other |}, null).

(** [~shared_ptr()] *)
Definition dtor (fuel : nat) (this : t) : M T unit :=
  match _ctr this with
  | Some c => decrement crtp_dispose fuel c
  | None => ret tt
  end.

(** [shared_ptr &operator= (shared_ptr other)]: [other] is the by-value
    parameter, destroyed when the call returns; the result is the new
    content of [*this]. *)
Definition assign (fuel : nat) (this other : t) : M T t :=
  do r <- swap this other;
  dtor fuel (snd r);;
  ret (fst r).

(** [operator bool () const] *)
Definition to_bool (this : t) : bool :=
  match _object this with Some _ => true | None => false end.

(** [std::pair<T *, counter *> release()]: returns the pair and what is
    left in [*this]. *)
Definition release (this : t)
  : M T ((option obj_ptr * option ctr_ptr) * t) :=
  ret ((_object this, _ctr this), null).

(** [T *get() const] *)
Definition get (this : t) : option obj_ptr := _object this.

(** [counter *ctr() const] *)
Definition ctr (this : t) : option ctr_ptr := _ctr this.

(** [friend shared_ptr handle_cast(shared_ptr<T, L> other)]: returns the
    result and what is left in the parameter [other]. *)
Definition handle_cast (fuel : nat) (other : t) : M T (t * t) :=
  (* shared_ptr p; *)
  let p := null in
  (* std::swap(p._object, other._object); *)
  let p1 := {| _object := _object other; _ctr := _ctr p |} in
  let other1 := {| _object := _object p; _ctr := _ctr other |} in
  (* std::swap(p._ctr, other._ctr); *)
  let p2 := {| _object := _object p1; _ctr := _ctr other1 |} in
  let other2 := {| _object := _object other1; _ctr := _ctr p1 |} in
  (* return std::move(p); then p goes out of scope *)
  do r <- move p2;
  dtor fuel (snd r);;
  ret (fst r, other2).

(** [static_cast<X *>(object)] on a non-null pointer. *)
Variable static_cast : obj_ptr -> obj_ptr.

(** [shared_ptr<X, H> static_pointer_cast(shared_ptr<T, H> other)]:
    returns the result and what is left in the parameter [other]. *)
Definition static_pointer_cast (other : t) : M T (t * t) :=
  do r <- release other;
  do x <- adopt (static_cast <$> fst (fst r)) (snd (fst r));
  ret (x, snd r).
End Methods.
End shared_ptr.

(** ** [struct weak_ptr<T, H>] *)

Module weak_ptr.
Record t : Type := mk {
  _object : option obj_ptr;
  _ctr : option ctr_ptr
}.

(** The data members [weak_ptr] declares, by name. *)
Inductive member_value : Type :=
| object_value (v : option obj_ptr)
| ctr_value (v : option ctr_ptr).

Definition member (name : string) (w : t) : option member_value :=
  if String.eqb name "_object" then Some (object_value (_object w))
  else if String.eqb name "_ctr" then Some (ctr_value (_ctr w))
  else None.

Section Methods.
Context {T : Type}.

(** [weak_ptr()] *)
Definition null : t := {| _object := None; _ctr := None |}.

(** [friend void swap(weak_ptr &x, weak_ptr &y)] *)
Definition swap (x y : t) : M T (t * t) :=
  ret ({| _object := _object y; _ctr := _ctr y |},
       {| _object := _object x; _ctr := _ctr x |}).

(** [assert(_ctr->holder()); _ctr->holder()->increment();] *)
Definition claim_holder (ctr : option ctr_ptr) : M T unit :=
  do h <- arrow ctr holder;
  assert_ (bool_decide (is_Some h));;
  do h' <- arrow ctr holder;
  arrow h' increment.

(** [weak_ptr(const shared_ptr<T, H> &ptr)] and
    [weak_ptr(const shared_ptr<X, H> &ptr)] *)
Definition from_shared (ptr : shared_ptr.t) : M T t :=
  let this := {| _object := shared_ptr.get ptr; _ctr := shared_ptr.ctr ptr |} in
  claim_holder (_ctr this);;
  ret this.

(** [weak_ptr(const weak_ptr &other)].  Its member initialisers read
    [other.object] and [other.ctr]; where [weak_ptr] has no member of
    that name the constructor has no meaning ([None]). *)
Definition copy (other : t) : option (M T t) :=
  match member "object" other, member "ctr" other with
  | Some (object_value o), Some (ctr_value c) =>
      Some (let this := {| _object := o; _ctr := c |} in
            match _ctr this with
            | Some _ => claim_holder (_ctr this);; ret this
            | None => ret this
            end)
  | _, _ => None
  end.

(** [weak_ptr(weak_ptr &&other)] *)
Definition move (other : t) : M T (t * t) :=
  swap null other.

(** [~weak_ptr()] *)
Definition dtor (fuel : nat) (this : t) : M T unit :=
  match _ctr this with
  | Some c =>
      do h <- holder c;
      assert_ (bool_decide (is_Some h));;
      do h' <- holder c;
      arrow h' (decrement crtp_dispose fuel)
  | None => ret tt
  end.

(** [weak_ptr &operator= (weak_ptr other)] *)
Definition assign (fuel : nat) (this other : t) : M T t :=
  do r <- swap this other;
  dtor fuel (snd r);;
  ret (fst r).

(** [shared_ptr<T, H> lock() const]; [retries] bounds the iterations of
    the loop in [increment_if_nonzero]. *)
Definition lock (retries : nat) (this : t) : M T shared_ptr.t :=
  match _ctr this with
  | None => ret shared_ptr.null
  | Some c =>
      do ok <- increment_if_nonzero retries c;
      if negb ok then ret shared_ptr.null
      else shared_ptr.adopt (_object this) (_ctr this)
  end.
End Methods.
End weak_ptr.

(** ** [make_shared] *)

Section MakeShared.
Context {T Args : Type}.
Variable construct : Args -> T.

(** [shared_ptr<T> make_shared(Args &&... args)] *)
Definition make_shared (args : Args) : M T shared_ptr.t :=
  do meta <- new_meta_object construct 1 args;
  shared_ptr.adopt (Some (meta_get meta)) (Some (object_ctr meta)).
End MakeShared.

(** ** Programs over handles

    A program owns a collection of [shared_ptr] and [weak_ptr] variables and
    runs handle operations on them one after the other.  Variables are
    addressed by position; a variable that goes out of scope is destroyed
    and removed.  An assignment [p_i = p_j] is the program that copies (or
    moves) [p_j] into the by-value parameter of [operator=], swaps [p_i]
    with the parameter and drops the parameter.  The copy constructor of
    [weak_ptr] is not among the operations: it has no meaning (see
    [weak_ptr.copy]). *)

Record prog (T : Type) : Type := mk_prog {
  mem : state T;
  strong : list shared_ptr.t;
  weak : list weak_ptr.t
}.
Arguments mk_prog {T} _ _ _.
Arguments mem {T} _.
Arguments strong {T} _.
Arguments weak {T} _.

Inductive op (Args : Type) : Type :=
| op_make (args : Args)   (* auto p = make_shared<T>(args...); *)
| op_null                 (* shared_ptr<T> p; *)
| op_copy (i : nat)       (* shared_ptr<T> p{p_i}; *)
| op_move (i : nat)       (* shared_ptr<T> p{std::move(p_i)}; *)
| op_drop (i : nat)       (* p_i goes out of scope *)
| op_weak (i : nat)       (* weak_ptr<T> w{p_i}; *)
| op_wnull                (* weak_ptr<T> w; *)
| op_wmove (i : nat)      (* weak_ptr<T> w{std::move(w_i)}; *)
| op_wdrop (i : nat)      (* w_i goes out of scope *)
| op_lock (i : nat)       (* shared_ptr<T> p = w_i.lock(); *)
| op_swap (i j : nat)     (* swap(p_i, p_j); *)
| op_wswap (i j : nat).   (* swap(w_i, w_j); *)
Arguments op_make {Args} _.
Arguments op_null {Args}.
Arguments op_copy {Args} _.
Arguments op_move {Args} _.
Arguments op_drop {Args} _.
Arguments op_weak {Args} _.
Arguments op_wnull {Args}.
Arguments op_wmove {Args} _.
Arguments op_wdrop {Args} _.
Arguments op_lock {Args} _.
Arguments op_swap {Args} _ _.
Arguments op_wswap {Args} _ _.

(** Continue with the value and state of a finished call. *)
Definition and_then {T A B : Type} (r : result (A * state T))
  (k : A -> state T -> B) : result B :=
  match r with
  | Ok (a, st) => Ok (k a st)
  | AssertFail => AssertFail
  | Undefined => Undefined
  | OutOfFuel => OutOfFuel
  end.

(** The variable at position [i]; naming a variable that does not exist is
    not a program. *)
Definition with_var {A B : Type} (l : list A) (i : nat) (k : A -> result B)
  : result B :=
  match l !! i with
  | Some x => k x
  | None => Undefined
  end.

Section Programs.
Context {T Args : Type}.
Variable construct : Args -> T.

Definition init : prog T := mk_prog (mk_state ∅ O []) [] [].

(** One operation; [fuel] bounds the holder recursion of [decrement] and
    the retries of [increment_if_nonzero]. *)
Definition step (fuel : nat) (o : op Args) (pr : prog T) : result (prog T) :=
  match o with
  | op_make args =>
      and_then (make_shared construct args (mem pr))
        (fun p st => mk_prog st (strong pr ++ [p]) (weak pr))
  | op_null =>
      Ok (mk_prog (mem pr) (strong pr ++ [shared_ptr.null]) (weak pr))
  | op_copy i =>
      with_var (strong pr) i (fun other =>
        and_then (shared_ptr.copy other (mem pr))
          (fun p st => mk_prog st (strong pr ++ [p]) (weak pr)))
  | op_move i =>
      with_var (strong pr) i (fun other =>
        and_then (shared_ptr.move other (mem pr))
          (fun r st => mk_prog st (<[i := snd r]> (strong pr) ++ [fst r]) (weak pr)))
  | op_drop i =>
      with_var (strong pr) i (fun this =>
        and_then (shared_ptr.dtor fuel this (mem pr))
          (fun _ st => mk_prog st (delete i (strong pr)) (weak pr)))
  | op_weak i =>
      with_var (strong pr) i (fun ptr =>
        and_then (weak_ptr.from_shared ptr (mem pr))
          (fun w st => mk_prog st (strong pr) (weak pr ++ [w])))
  | op_wnull =>
      Ok (mk_prog (mem pr) (strong pr) (weak pr ++ [weak_ptr.null]))
  | op_wmove i =>
      with_var (weak pr) i (fun other =>
        and_then (weak_ptr.move other (mem pr))
          (fun r st => mk_prog st (strong pr) (<[i := snd r]> (weak pr) ++ [fst r])))
  | op_wdrop i =>
      with_var (weak pr) i (fun this =>
        and_then (weak_ptr.dtor fuel this (mem pr))
          (fun _ st => mk_prog st (strong pr) (delete i (weak pr))))
  | op_lock i =>
      with_var (weak pr) i (fun this =>
        and_then (weak_ptr.lock fuel this (mem pr))
          (fun p st => mk_prog st (strong pr ++ [p]) (weak pr)))
  | op_swap i j =>
      with_var (strong pr) i (fun x =>
        with_var (strong pr) j (fun y =>
          and_then (shared_ptr.swap x y (mem pr))
            (fun r st =>
               mk_prog st (<[j := snd r]> (<[i := fst r]> (strong pr))) (weak pr))))
  | op_wswap i j =>
      with_var (weak pr) i (fun x =>
        with_var (weak pr) j (fun y =>
          and_then (weak_ptr.swap x y (mem pr))
            (fun r st =>
               mk_prog st (strong pr) (<[j := snd r]> (<[i := fst r]> (weak pr))))))
  end.

(** Run a list of operations, stopping at the first that does not
    return. *)
Fixpoint run (fuel : nat) (ops : list (op Args)) (pr : prog T) : result (prog T) :=
  match ops with
  | [] => Ok pr
  | o :: ops' =>
      match step fuel o pr with
      | Ok pr' => run fuel ops' pr'
      | AssertFail => AssertFail
      | Undefined => Undefined
      | OutOfFuel => OutOfFuel
      end
  end.
End Programs.

(** ** Move-assignment between variables *)

(** [p_i = std::move(p_j);].  The by-value parameter of [operator=] is
    move-constructed from the variable [p_j], which is emptied in place;
    [*this] is the variable [p_i] as it is after that (the very variable
    just emptied when [i = j]); [operator=] swaps it with the parameter,
    and the parameter is destroyed when the call returns. *)
Definition move_assign {T : Type} (fuel : nat) (i j : nat) (pr : prog T)
  : result (prog T) :=
  with_var (strong pr) j (fun src =>
    match shared_ptr.move src (mem pr) with
    | Ok (r, st) =>
        let vars := <[j := snd r]> (strong pr) in
        with_var vars i (fun this =>
          and_then (shared_ptr.assign fuel this (fst r) st)
            (fun p st' => mk_prog st' (<[i := p]> vars) (weak pr)))
    | AssertFail => AssertFail
    | Undefined => Undefined
    | OutOfFuel => OutOfFuel
    end).

(** [w_i = std::move(w_j);] *)
Definition weak_move_assign {T : Type} (fuel : nat) (i j : nat) (pr : prog T)
  : result (prog T) :=
  with_var (weak pr) j (fun src =>
    match weak_ptr.move src (mem pr) with
    | Ok (r, st) =>
        let vars := <[j := snd r]> (weak pr) in
        with_var vars i (fun this =>
          and_then (weak_ptr.assign fuel this (fst r) st)
            (fun w st' => mk_prog st' (strong pr) (<[i := w]> vars)))
    | AssertFail => AssertFail
    | Undefined => Undefined
    | OutOfFuel => OutOfFuel
    end).

(** Whether a [counter *] is the object counter of the cell at [m]. *)
Definition rides (m : addr) (c : option ctr_ptr) : bool :=
  match c with
  | Some (object_ctr m') => Nat.eqb m m'
  | _ => false
  end.

(** Number of handles in [l] on the cell at [m]; [ctr] reads the counter
    pointer of a handle. *)
Fixpoint claims {A : Type} (ctr : A -> option ctr_ptr) (m : addr) (l : list A) : N :=
  match l with
  | [] => 0
  | x :: l' => (if rides m (ctr x) then 1 else 0) + claims ctr m l'
  end.

(** Live [shared_ptr]s and live [weak_ptr]s on the cell at [m]. *)
Definition strong_on {T : Type} (m : addr) (pr : prog T) : N :=
  claims shared_ptr._ctr m (strong pr).

Definition weak_on {T : Type} (m : addr) (pr : prog T) : N :=
  claims weak_ptr._ctr m (weak pr).

(** The value destructions and deallocations of the cell at [m], in the
    order they happened. *)
Definition is_end_of (m : addr) (e : event) : bool :=
  match e with
  | EvDestruct m' => Nat.eqb m m'
  | EvDelete m' => Nat.eqb m m'
  | _ => false
  end.

Definition ends_of (m : addr) (l : list event) : list event :=
  List.filter (is_end_of m) l.

(** No cell carries so many handles that a count would wrap. *)
Definition small {T : Type} (pr : prog T) : Prop :=
  forall m, strong_on m pr < uint_modulus /\ 1 + weak_on m pr < uint_modulus.

(** A [meta_object] at [m] as its constructor wires it, with the given
    counts and box. *)
Definition cell_of {T : Type} (m : addr) (memory_count object_count : N)
    (b : box T) : meta_object T :=
  mk_meta_object (mk_counter None memory_count)
                 (mk_counter (Some (memory_ctr m)) object_count)
                 b.

(** The life of the cell at [m], read off the break [b], the heap entry [o],
    the numbers [s] and [w] of live [shared_ptr]s and [weak_ptr]s on it and
    its destruction and deallocation events [e]. *)
Inductive cell_ok {T : Type} (m b : addr) (o : option (meta_object T))
    (s w : N) (e : list event) : Prop :=
| cell_unborn :
    (b <= m)%nat -> o = None -> s = 0 -> w = 0 -> e = [] ->
    cell_ok m b o s w e
| cell_valued (v : T) :
    (m < b)%nat -> 0 < s -> o = Some (cell_of m (1 + w) s (Some v)) -> e = [] ->
    cell_ok m b o s w e
| cell_hollow :
    (m < b)%nat -> s = 0 -> 0 < w -> o = Some (cell_of m w 0 None) ->
    e = [EvDestruct m] ->
    cell_ok m b o s w e
| cell_freed :
    (m < b)%nat -> s = 0 -> w = 0 -> o = None ->
    e = [EvDestruct m; EvDelete m] ->
    cell_ok m b o s w e.

(** Handles of a program ride on object counters only. *)
Definition on_object_ctr (c : option ctr_ptr) : Prop :=
  forall m, c <> Some (memory_ctr m).

Record inv {T : Type} (pr : prog T) : Prop := mk_inv {
  inv_small : small pr;
  inv_strong : Forall (fun h => on_object_ctr (shared_ptr._ctr h)) (strong pr);
  inv_weak : Forall (fun h => on_object_ctr (weak_ptr._ctr h)) (weak pr);
  inv_cells :
    forall m,
      cell_ok m (brk (mem pr)) (heap (mem pr) !! m)
              (strong_on m pr) (weak_on m pr) (ends_of m (log (mem pr)))
}.

(** States a program can be in. *)
Inductive reachable {T Args : Type} (construct : Args -> T) : prog T -> Prop :=
| reachable_init : reachable construct init
| reachable_step (fuel : nat) (o : op Args) (pr pr' : prog T) :
    reachable construct pr ->
    (2 <= fuel)%nat ->
    step construct fuel o pr = Ok pr' ->
    reachable construct pr'.

(** States a program can be in without ever holding so many handles on one
    cell that a count would wrap. *)
Inductive reachable_small {T Args : Type} (construct : Args -> T) : prog T -> Prop :=
| reachable_small_init : reachable_small construct init
| reachable_small_step (fuel : nat) (o : op Args) (pr pr' : prog T) :
    reachable_small construct pr ->
    (2 <= fuel)%nat ->
    step construct fuel o pr = Ok pr' ->
    small pr' ->
    reachable_small construct pr'.

(** A small example: one cell with two claims on its object counter. *)
Definition demo_heap (n : N) : gmap nat (meta_object unit) :=
  {[ O := mk_meta_object (mk_counter None 1)
                         (mk_counter (Some (memory_ctr O)) n)
                         (Some tt) ]}.

Definition demo_state (n : N) : state unit := mk_state (demo_heap n) 1%nat [].

(** An operation names variables that exist, and takes a [weak_ptr] only
    from a non-null [shared_ptr]. *)
Definition well_formed {T Args : Type} (o : op Args) (pr : prog T) : Prop :=
  match o with
  | op_make _ | op_null | op_wnull => True
  | op_copy i | op_move i | op_drop i => is_Some (strong pr !! i)
  | op_weak i =>
      exists ptr, strong pr !! i = Some ptr /\ shared_ptr._ctr ptr <> None
  | op_wmove i | op_wdrop i | op_lock i => is_Some (weak pr !! i)
  | op_swap i j => is_Some (strong pr !! i) /\ is_Some (strong pr !! j)
  | op_wswap i j => is_Some (weak pr !! i) /\ is_Some (weak pr !! j)
  end.

(** A run of the specification's scenario: a cell is made, its handle
    copied three times, the three copies dropped, a [weak_ptr] taken and the
    last [shared_ptr] dropped. *)
Definition scenario : list (op unit) :=
  [op_make tt; op_copy 0; op_copy 0; op_copy 0;
   op_drop 1; op_drop 1; op_drop 1; op_weak 0; op_drop 0].

Definition scenario_end : prog unit :=
  mk_prog
    (mk_state
       (<[O := cell_of 0 1 0 None]> ∅) 1%nat
       [EvNew 0; EvConstruct 0; EvFetchAdd (object_ctr 0);
        EvFetchAdd (object_ctr 0); EvFetchAdd (object_ctr 0);
        EvFetchSub (object_ctr 0); EvFetchSub (object_ctr 0);
        EvFetchSub (object_ctr 0); EvLoadHolder (object_ctr 0);
        EvLoadHolder (object_ctr 0); EvFetchAdd (memory_ctr 0);
        EvFetchSub (object_ctr 0); EvLoadHolder (object_ctr 0);
        EvDispose (object_ctr 0); EvDestruct 0;
        EvFetchSub (memory_ctr 0)])
    []
    [weak_ptr.mk (Some O) (Some (object_ctr 0))].

(** The handle [make_shared] returns for the first cell. *)
Definition first_handle : shared_ptr.t :=
  shared_ptr.mk (Some O) (Some (object_ctr 0)).

(** The state after [make_shared] and [n] copies of its handle. *)
Definition copies_prog (n : nat) : prog unit :=
  mk_prog
    (mk_state
       (<[O := cell_of 0 1 (wrap (1 + N.of_nat n)) (Some tt)]> ∅)
       1%nat
       ([EvNew 0; EvConstruct 0] ++ repeat (EvFetchAdd (object_ctr 0)) n))
    (repeat first_handle (S n))
    [].

(** ** [struct shared_ptr_access<T, H>] *)

Section Access.
Context {T : Type}.

(** [*object] for a [T *]: the value living in the box it points to; a null
    pointer, freed storage or a box without a value is undefined. *)
Definition load_value (object : option obj_ptr) : M T T :=
  fun st =>
    match object with
    | Some m =>
        match heap st !! m with
        | Some o =>
            match _bx o with
            | Some v => Ok (v, st)
            | None => Undefined
            end
        | None => Undefined
        end
    | None => Undefined
    end.

(** [T &operator* () const]: [*d->_object]. *)
Definition operator_star (d : shared_ptr.t) : M T T :=
  load_value (shared_ptr._object d).

(** [T *operator-> () const]: [d->_object]. *)
Definition operator_arrow (d : shared_ptr.t) : option obj_ptr :=
  shared_ptr._object d.
End Access.



(** * Proofs *)

(** ** Arithmetic on [unsigned int] *)

Lemma wrap_small (n : N) : n < uint_modulus -> wrap n = n.
Proof. intros H. unfold wrap. apply N.mod_small. exact H. Qed.

Lemma wrap_bound (n : N) : wrap n < uint_modulus.
Proof. unfold wrap. apply N.mod_lt. discriminate. Qed.

Lemma uint_sub_1_pos (n : N) :
  n <> 0 -> n < uint_modulus -> uint_sub n 1 = n - 1.
Proof.
  intros Hn Hlt. unfold uint_sub.
  rewrite (wrap_small 1) by (unfold uint_modulus; lia).
  replace (n + (uint_modulus - 1)) with ((n - 1) + 1 * uint_modulus)
    by (unfold uint_modulus in *; lia).
  unfold wrap. rewrite N.Div0.mod_add. apply N.mod_small. lia.
Qed.

Lemma uint_sub_1_zero : uint_sub 0 1 = 4294967295.
Proof. reflexivity. Qed.

(** ** The primitives, evaluated *)

Section PrimitiveFacts.
Context {T : Type}.
Implicit Types (st : state T) (p q : ctr_ptr) (c : counter).

Lemma ctr_at_set_ctr_eq p c c0 (h : gmap nat (meta_object T)) :
  ctr_at p h = Some c0 -> ctr_at p (set_ctr p c h) = Some c.
Proof.
  destruct p as [m|m]; simpl; rewrite lookup_alter_eq;
    destruct (h !! m); simpl; congruence.
Qed.

Lemma ctr_at_set_ctr_ne p q c (h : gmap nat (meta_object T)) :
  p <> q -> ctr_at q (set_ctr p c h) = ctr_at q h.
Proof.
  intros Hne. destruct p as [m|m], q as [m'|m']; simpl;
    (destruct (decide (m = m')) as [->|Hm];
     [ rewrite lookup_alter_eq; destruct (h !! m'); simpl; congruence
     | rewrite lookup_alter_ne by exact Hm; reflexivity ]).
Qed.

Lemma fetch_sub_eq p n st c :
  ctr_at p (heap st) = Some c ->
  fetch_sub p n st =
    Ok (_count c,
        mk_state (set_ctr p (mk_counter (_holder c) (uint_sub (_count c) n)) (heap st))
                 (brk st) (log st ++ [EvFetchSub p])).
Proof. intros H. unfold fetch_sub, bind, deref. rewrite H. reflexivity. Qed.

Lemma fetch_add_eq p n st c :
  ctr_at p (heap st) = Some c ->
  fetch_add p n st =
    Ok (_count c,
        mk_state (set_ctr p (mk_counter (_holder c) (wrap (_count c + n))) (heap st))
                 (brk st) (log st ++ [EvFetchAdd p])).
Proof. intros H. unfold fetch_add, bind, deref. rewrite H. reflexivity. Qed.

Lemma load_count_eq p st c :
  ctr_at p (heap st) = Some c ->
  load_count p st =
    Ok (_count c, mk_state (heap st) (brk st) (log st ++ [EvLoadCount p])).
Proof. intros H. unfold load_count, bind, deref. rewrite H. reflexivity. Qed.

Lemma load_holder_eq p st c :
  ctr_at p (heap st) = Some c ->
  load_holder p st =
    Ok (_holder c, mk_state (heap st) (brk st) (log st ++ [EvLoadHolder p])).
Proof. intros H. unfold load_holder, bind, deref. rewrite H. reflexivity. Qed.

Lemma cas_hit p st c desired :
  ctr_at p (heap st) = Some c ->
  compare_exchange_strong p (_count c) desired st =
    Ok ((true, _count c),
        mk_state (set_ctr p (mk_counter (_holder c) (wrap desired)) (heap st))
                 (brk st) (log st ++ [EvCas p true])).
Proof.
  intros H. unfold compare_exchange_strong, bind, deref. rewrite H.
  rewrite N.eqb_refl. reflexivity.
Qed.
End PrimitiveFacts.

(** ** [counter] *)

Section CounterFacts.
Context {T : Type}.
Variable dispose : ctr_ptr -> M T unit.
Implicit Types (st : state T) (p q : ctr_ptr) (c : counter).

Lemma increment_eq p st c :
  ctr_at p (heap st) = Some c ->
  increment p st =
    if N.eqb (_count c) 0 then AssertFail
    else Ok (tt, mk_state
                   (set_ctr p (mk_counter (_holder c) (wrap (_count c + 1))) (heap st))
                   (brk st) (log st ++ [EvFetchAdd p])).
Proof.
  intros H. unfold increment, bind. rewrite (fetch_add_eq _ _ _ _ H).
  unfold assert_. destruct (N.eqb (_count c) 0); reflexivity.
Qed.

Lemma decrement_unfold fuel p st c :
  ctr_at p (heap st) = Some c ->
  decrement dispose (S fuel) p st =
    let st1 := mk_state
                 (set_ctr p (mk_counter (_holder c) (uint_sub (_count c) 1)) (heap st))
                 (brk st) (log st ++ [EvFetchSub p]) in
    if N.ltb 1 (_count c) then Ok (tt, st1)
    else if N.eqb (_count c) 1 then
      (dispose p;;
       match _holder c with
       | Some h => decrement dispose fuel h
       | None => ret tt
       end)
        (mk_state (heap st1) (brk st1)
                  (log st ++ [EvFetchSub p; EvLoadHolder p; EvDispose p]))
    else AssertFail.
Proof.
  intros H. simpl. unfold bind at 1. rewrite (fetch_sub_eq _ _ _ _ H). simpl.
  destruct (N.ltb 1 (_count c)); [reflexivity|].
  unfold bind at 1. unfold assert_.
  destruct (N.eqb (_count c) 1); [|reflexivity].
  unfold bind at 1.
  erewrite load_holder_eq
    by (simpl; eapply ctr_at_set_ctr_eq; exact H).
  simpl. unfold bind at 1. unfold emit. simpl.
  rewrite <- !app_assoc. reflexivity.
Qed.
End CounterFacts.

(** C4.  [increment()] on a counter whose count is zero fails its assertion
    (the run aborts; no state is returned); on a counter whose count is not
    zero it returns normally, having added one to the count through a
    single [fetch_add] and changed nothing else.  The addition is that of
    [unsigned int]: the new count is the old count plus one, reduced modulo
    [2^32] (so it is the old count plus one unless the old count was
    [2^32 - 1]). *)
Theorem increment_asserts_nonzero {T : Type} (p : ctr_ptr) (st : state T) (c : counter) :
  ctr_at p (heap st) = Some c ->
  (_count c = 0 -> increment p st = AssertFail) /\
  (_count c <> 0 ->
   exists st',
     increment p st = Ok (tt, st') /\
     heap st' = set_ctr p (mk_counter (_holder c) ((_count c + 1) mod 2 ^ 32)) (heap st) /\
     ctr_at p (heap st') = Some (mk_counter (_holder c) ((_count c + 1) mod 2 ^ 32)) /\
     (_count c + 1 < 2 ^ 32 ->
      ctr_at p (heap st') = Some (mk_counter (_holder c) (_count c + 1))) /\
     brk st' = brk st /\
     log st' = log st ++ [EvFetchAdd p]).
Proof.
  intros H. rewrite (increment_eq _ _ _ H). split.
  - intros ->. reflexivity.
  - intros Hnz. destruct (N.eqb_spec (_count c) 0) as [|_]; [contradiction|].
    eexists. split; [reflexivity|]. cbn [heap brk log].
    split; [reflexivity|]. split; [|split; [|split; reflexivity]].
    + eapply ctr_at_set_ctr_eq. exact H.
    + intros Hlt. rewrite <- (wrap_small _ Hlt) at 2.
      eapply ctr_at_set_ctr_eq. exact H.
Qed.

Lemma increment_asserts_nonzero_witness :
  ctr_at (object_ctr 0) (heap (demo_state 2))
    = Some (mk_counter (Some (memory_ctr 0)) 2) /\
  (exists st', increment (object_ctr 0) (demo_state 2) = Ok (tt, st') /\
     ctr_at (object_ctr 0) (heap st') = Some (mk_counter (Some (memory_ctr 0)) 3)) /\
  (increment (object_ctr 0) (demo_state 0) = AssertFail).
Proof.
  split; [reflexivity|]. split.
  - destruct (increment_asserts_nonzero (object_ctr 0) (demo_state 2)
                (mk_counter (Some (memory_ctr 0)) 2) eq_refl) as [_ Hnz].
    destruct (Hnz ltac:(discriminate)) as (st' & Hrun & _ & _ & Hctr & _).
    exists st'. split; [exact Hrun | exact (Hctr eq_refl)].
  - apply (increment_asserts_nonzero (object_ctr 0) (demo_state 0)
             (mk_counter (Some (memory_ctr 0)) 0) eq_refl).
    reflexivity.
Defined.

(** C10.  [decrement()] on a counter whose count is zero fails the assertion
    [count == 1]: the fetched previous count is 0, so the early return is
    not taken and the check fails; the run aborts instead of carrying on
    with the wrapped count.  When the count is not zero the assertion
    cannot fail: the call behaves as the same code without the [assert]
    line (an early return when more than one claim was left, the
    zero-crossing otherwise). *)
Theorem decrement_zero_asserts {T : Type} (dispose : ctr_ptr -> M T unit)
    (fuel : nat) (p : ctr_ptr) (st : state T) (c : counter) :
  ctr_at p (heap st) = Some c ->
  (_count c = 0 -> decrement dispose (S fuel) p st = AssertFail) /\
  (_count c <> 0 ->
   decrement dispose (S fuel) p st =
     (do count <- fetch_sub p 1;
      if N.ltb 1 count then ret tt
      else
        do h <- load_holder p;
        emit (EvDispose p);;
        dispose p;;
        match h with
        | Some h' => decrement dispose fuel h'
        | None => ret tt
        end) st).
Proof.
  intros H. split.
  - intros Hz. rewrite (decrement_unfold _ _ _ _ _ H). rewrite Hz. reflexivity.
  - intros Hnz. simpl. unfold bind. rewrite (fetch_sub_eq _ _ _ _ H).
    destruct (N.ltb 1 (_count c)) eqn:Hlt; [reflexivity|].
    assert (_count c = 1) as -> by (apply N.ltb_ge in Hlt; lia).
    reflexivity.
Qed.

Lemma decrement_zero_asserts_witness :
  ctr_at (object_ctr 0) (heap (demo_state 0))
    = Some (mk_counter (Some (memory_ctr 0)) 0) /\
  decrement crtp_dispose 1 (object_ctr 0) (demo_state 0) = AssertFail.
Proof.
  split; [reflexivity|].
  apply (decrement_zero_asserts crtp_dispose 0 (object_ctr 0) (demo_state 0)
           (mk_counter (Some (memory_ctr 0)) 0) eq_refl).
  reflexivity.
Defined.

(** C1, as the code has it.  For a counter whose count is not zero,
    [decrement()] subtracts 1 from the count with a single [fetch_sub].  If
    the resulting count is not zero it returns, having done nothing else.
    If the resulting count is zero it reads the holder, then calls
    [dispose()] once, then calls [decrement()] on the holder read before the
    disposal if there was one, in that order: the log gains [EvFetchSub],
    [EvLoadHolder], [EvDispose] ahead of whatever the disposal and the
    holder's [decrement()] do. *)
Theorem decrement_cascade {T : Type} (dispose : ctr_ptr -> M T unit)
    (fuel : nat) (p : ctr_ptr) (st : state T) (c : counter) :
  ctr_at p (heap st) = Some c ->
  _count c < uint_modulus ->
  _count c <> 0 ->
  let st1 :=
    mk_state (set_ctr p (mk_counter (_holder c) (_count c - 1)) (heap st))
             (brk st) (log st ++ [EvFetchSub p]) in
  ctr_at p (heap st1) = Some (mk_counter (_holder c) (_count c - 1)) /\
  (_count c - 1 <> 0 -> decrement dispose (S fuel) p st = Ok (tt, st1)) /\
  (_count c - 1 = 0 ->
   decrement dispose (S fuel) p st =
     (dispose p;;
      match _holder c with
      | Some h => decrement dispose fuel h
      | None => ret tt
      end)
       (mk_state (heap st1) (brk st)
                 (log st ++ [EvFetchSub p; EvLoadHolder p; EvDispose p]))).
Proof.
  intros H Hlt Hnz st1. subst st1.
  split; [eapply ctr_at_set_ctr_eq; exact H|].
  rewrite (decrement_unfold _ _ _ _ _ H).
  rewrite (uint_sub_1_pos _ Hnz Hlt). cbv zeta. cbn [heap brk log].
  split; intros Hc.
  - destruct (N.ltb_spec 1 (_count c)) as [_|Hle]; [reflexivity|lia].
  - destruct (N.ltb_spec 1 (_count c)) as [Hgt|_]; [lia|].
    destruct (N.eqb_spec (_count c) 1) as [_|Hne]; [reflexivity|lia].
Qed.

Lemma decrement_cascade_witness :
  ctr_at (object_ctr 0) (heap (demo_state 2))
    = Some (mk_counter (Some (memory_ctr 0)) 2) /\
  decrement crtp_dispose 1 (object_ctr 0) (demo_state 2)
    = Ok (tt, mk_state (demo_heap 1) 1%nat [EvFetchSub (object_ctr 0)]).
Proof.
  split; [reflexivity|].
  destruct (decrement_cascade crtp_dispose 0 (object_ctr 0) (demo_state 2)
              (mk_counter (Some (memory_ctr 0)) 2) eq_refl eq_refl
              ltac:(discriminate)) as (_ & Hret & _).
  rewrite (Hret ltac:(discriminate)). reflexivity.
Defined.

(** C1 as stated fails for a counter whose count is zero: the resulting
    count, [0 - 1] on [unsigned int], is not zero, yet [decrement()] does not
    return: it fails its assertion. *)
Lemma decrement_zero_count_counterexample :
  ctr_at (object_ctr 0) (heap (demo_state 0))
    = Some (mk_counter (Some (memory_ctr 0)) 0) /\
  uint_sub 0 1 <> 0 /\
  decrement crtp_dispose 1 (object_ctr 0) (demo_state 0) = AssertFail /\
  ~ (forall (p : ctr_ptr) (st : state unit) (c : counter),
       ctr_at p (heap st) = Some c ->
       uint_sub (_count c) 1 <> 0 ->
       exists st', decrement crtp_dispose 1 p st = Ok (tt, st')).
Proof.
  split; [reflexivity|]. split; [discriminate|]. split; [reflexivity|].
  intros Hall.
  destruct (Hall (object_ctr 0) (demo_state 0)
              (mk_counter (Some (memory_ctr 0)) 0) eq_refl ltac:(discriminate))
    as [st' Hst'].
  discriminate Hst'.
Qed.

(** ** [increment_if_nonzero] and [weak_ptr::lock] *)

Section LockFacts.
Context {T : Type}.
Implicit Types (st : state T) (p : ctr_ptr) (c : counter).

(** Run alone, the loop of [increment_if_nonzero] exchanges at its first
    attempt: one iteration is all it takes. *)
Lemma increment_if_nonzero_eq retries p st c :
  ctr_at p (heap st) = Some c ->
  increment_if_nonzero (S retries) p st =
    if N.eqb (_count c) 0 then
      Ok (false, mk_state (heap st) (brk st) (log st ++ [EvLoadCount p]))
    else
      Ok (true,
          mk_state
            (set_ctr p (mk_counter (_holder c) (wrap (_count c + 1))) (heap st))
            (brk st) (log st ++ [EvLoadCount p; EvCas p true])).
Proof.
  intros H. unfold increment_if_nonzero. unfold bind at 1.
  rewrite (load_count_eq _ _ _ H). simpl.
  destruct (N.eqb (_count c) 0); [reflexivity|].
  unfold bind at 1.
  rewrite (cas_hit p (mk_state (heap st) (brk st) (log st ++ [EvLoadCount p])) c
             (_count c + 1) H).
  simpl. unfold ret. rewrite <- app_assoc. reflexivity.
Qed.

Lemma increment_if_nonzero_dangling retries p st :
  ctr_at p (heap st) = None ->
  increment_if_nonzero retries p st = Undefined.
Proof.
  intros H. unfold increment_if_nonzero, load_count, bind, deref.
  rewrite H. reflexivity.
Qed.
End LockFacts.

(** C5.  [lock()] on a null [weak_ptr] returns a null [shared_ptr] and
    touches nothing.  On a non-null one it runs [increment_if_nonzero()] on
    the observed counter: if the count is zero the result is a null
    [shared_ptr] and the count is left alone; otherwise the result carries
    the recorded value pointer and counter, and the only write to the
    counter is the one successful exchange to the count plus one.  In no
    state does [lock()] fail an assertion or run out of retries. *)
Theorem lock_upgrades_or_returns_null {T : Type} (retries : nat)
    (w : weak_ptr.t) (st : state T) :
  (weak_ptr._ctr w = None ->
   weak_ptr.lock (S retries) w st = Ok (shared_ptr.null, st)) /\
  (forall p c,
     weak_ptr._ctr w = Some p -> ctr_at p (heap st) = Some c ->
     (_count c = 0 ->
      weak_ptr.lock (S retries) w st =
        Ok (shared_ptr.null,
            mk_state (heap st) (brk st) (log st ++ [EvLoadCount p]))) /\
     (_count c <> 0 ->
      weak_ptr.lock (S retries) w st =
        Ok (shared_ptr.mk (weak_ptr._object w) (Some p),
            mk_state
              (set_ctr p (mk_counter (_holder c) ((_count c + 1) mod 2 ^ 32)) (heap st))
              (brk st) (log st ++ [EvLoadCount p; EvCas p true])))) /\
  weak_ptr.lock (S retries) w st <> AssertFail /\
  weak_ptr.lock (S retries) w st <> OutOfFuel.
Proof.
  unfold weak_ptr.lock. split; [|split].
  - intros ->. reflexivity.
  - intros p c -> H. unfold bind.
    rewrite (increment_if_nonzero_eq _ _ _ _ H).
    split.
    + intros ->. reflexivity.
    + intros Hnz. destruct (N.eqb_spec (_count c) 0) as [|_]; [contradiction|].
      reflexivity.
  - destruct (weak_ptr._ctr w) as [p|] eqn:Hw; [|split; discriminate].
    unfold bind. destruct (ctr_at p (heap st)) as [c|] eqn:H.
    + rewrite (increment_if_nonzero_eq _ _ _ _ H).
      destruct (N.eqb (_count c) 0); split; discriminate.
    + rewrite (increment_if_nonzero_dangling _ _ _ H). split; discriminate.
Qed.

Lemma lock_upgrades_or_returns_null_witness :
  weak_ptr.lock 1 (weak_ptr.mk (Some O) (Some (object_ctr 0))) (demo_state 0)
    = Ok (shared_ptr.null,
          mk_state (demo_heap 0) 1%nat [EvLoadCount (object_ctr 0)]) /\
  weak_ptr.lock 1 (weak_ptr.mk (Some O) (Some (object_ctr 0))) (demo_state 1)
    = Ok (shared_ptr.mk (Some O) (Some (object_ctr 0)),
          mk_state (demo_heap 2) 1%nat
                   [EvLoadCount (object_ctr 0); EvCas (object_ctr 0) true]) /\
  weak_ptr.lock 1 weak_ptr.null (demo_state 1) = Ok (shared_ptr.null, demo_state 1).
Proof.
  split; [|split].
  - destruct (lock_upgrades_or_returns_null 0
                (weak_ptr.mk (Some O) (Some (object_ctr 0))) (demo_state 0))
      as (_ & Hnn & _).
    destruct (Hnn (object_ctr 0) (mk_counter (Some (memory_ctr 0)) 0)
                eq_refl eq_refl) as [Hz _].
    rewrite (Hz eq_refl). reflexivity.
  - destruct (lock_upgrades_or_returns_null 0
                (weak_ptr.mk (Some O) (Some (object_ctr 0))) (demo_state 1))
      as (_ & Hnn & _).
    destruct (Hnn (object_ctr 0) (mk_counter (Some (memory_ctr 0)) 1)
                eq_refl eq_refl) as [_ Hnz].
    rewrite (Hnz ltac:(discriminate)). reflexivity.
  - apply (lock_upgrades_or_returns_null 0 weak_ptr.null (demo_state 1)).
    reflexivity.
Defined.

(** ** The factory *)

Section FactoryFacts.
Context {T Args : Type}.
Variable construct : Args -> T.
Implicit Types (st : state T).

Lemma new_meta_object_eq initial_count args st :
  new_meta_object construct initial_count args st =
    Ok (brk st,
        mk_state
          (<[brk st := cell_of (brk st) 1 (wrap initial_count)
                         (Some (construct args))]> (heap st))
          (S (brk st)) (log st ++ [EvNew (brk st); EvConstruct (brk st)])).
Proof.
  unfold new_meta_object, meta_object_ctor, operator_new, box_construct, bind, ret.
  cbn [heap brk log]. rewrite lookup_insert_eq. cbn [memory_base object_base].
  rewrite insert_insert_eq, <- app_assoc. reflexivity.
Qed.

Lemma make_shared_eq args st :
  make_shared construct args st =
    Ok (shared_ptr.mk (Some (brk st)) (Some (object_ctr (brk st))),
        mk_state
          (<[brk st := cell_of (brk st) 1 1 (Some (construct args))]> (heap st))
          (S (brk st)) (log st ++ [EvNew (brk st); EvConstruct (brk st)])).
Proof. unfold make_shared, bind. rewrite new_meta_object_eq. reflexivity. Qed.
End FactoryFacts.

(** C6.  [make_shared(args...)] performs one allocation (one [EvNew], at the
    fresh address [m]) that holds the whole [meta_object]: the memory
    counter with count 1 and no holder, the object counter with count 1 and
    the memory counter of the same [meta_object] as its holder, and the box
    holding the value constructed from [args].  It returns a [shared_ptr] of
    the value pointer of that cell (the address [m] itself, through which
    the constructed value is read) and the object counter of that cell,
    with no further counter access.  The constructor of [meta_object]
    installs whatever initial count it is given. *)
Theorem make_shared_builds_cell {T Args : Type} (construct : Args -> T)
    (args : Args) (st : state T) :
  let m := brk st in
  let st' :=
    mk_state
      (<[m := mk_meta_object (mk_counter None 1)
                (mk_counter (Some (memory_ctr m)) 1)
                (Some (construct args))]> (heap st))
      (S m) (log st ++ [EvNew m; EvConstruct m]) in
  make_shared construct args st
    = Ok (shared_ptr.mk (Some m) (Some (object_ctr m)), st') /\
  operator_star (shared_ptr.mk (Some m) (Some (object_ctr m))) st'
    = Ok (construct args, st') /\
  operator_arrow (shared_ptr.mk (Some m) (Some (object_ctr m))) = Some m /\
  forall initial_count,
    new_meta_object construct initial_count args st =
      Ok (m,
          mk_state
            (<[m := mk_meta_object (mk_counter None 1)
                      (mk_counter (Some (memory_ctr m)) (initial_count mod 2 ^ 32))
                      (Some (construct args))]> (heap st))
            (S m) (log st ++ [EvNew m; EvConstruct m])).
Proof.
  intros m st'. subst m st'. split; [|split; [|split]].
  - apply make_shared_eq.
  - unfold operator_star, load_value. cbn [shared_ptr._object heap].
    rewrite lookup_insert_eq. reflexivity.
  - reflexivity.
  - intros n. apply new_meta_object_eq.
Qed.

(** ** [shared_ptr]: hand-off of a claim *)

(** C7.  [release()] returns the [(_object, _ctr)] pair of the handle and
    leaves the handle null; no counter is accessed (the state, log
    included, is the one before the call).  Adopting the released pair
    yields a handle equal to the original one, again in an unchanged
    state: across the round trip nothing was incremented or decremented. *)
Theorem release_adopt_round_trip {T : Type} (p : shared_ptr.t) (st : state T) :
  shared_ptr.release p st
    = Ok (((shared_ptr._object p, shared_ptr._ctr p), shared_ptr.null), st) /\
  (do r <- shared_ptr.release p;
   do q <- shared_ptr.adopt (fst (fst r)) (snd (fst r));
   ret (q, snd r)) st
    = Ok ((p, shared_ptr.null), st).
Proof. destruct p. split; reflexivity. Qed.

(** C8, as the code has it.  Both casts take their argument by value.
    [static_pointer_cast] and [handle_cast] return a handle riding on the
    counter of their argument (with the value pointer converted, or kept)
    and leave the argument null, in an unchanged state: no counter was
    accessed, so every count reads the same before and after, and
    destroying the emptied argument afterwards does nothing either.  For a
    handle that is moved into the cast this is the whole call: the result
    holds the claim of the source, the source is left null and the state is
    the one before the call. *)
Theorem casts_transfer_claim {T : Type} (fuel : nat)
    (static_cast : obj_ptr -> obj_ptr) (other : shared_ptr.t) (st : state T) :
  shared_ptr.static_pointer_cast static_cast other st
    = Ok ((shared_ptr.mk (static_cast <$> shared_ptr._object other)
                         (shared_ptr._ctr other),
           shared_ptr.null), st) /\
  shared_ptr.handle_cast fuel other st = Ok ((other, shared_ptr.null), st) /\
  shared_ptr.dtor fuel shared_ptr.null st = Ok (tt, st) /\
  (forall c,
     (do n <- check_count c;
      do _ <- shared_ptr.static_pointer_cast static_cast other;
      do n' <- check_count c;
      ret (N.eqb n n')) st
     = (do n <- check_count c;
        do n' <- check_count c;
        ret true) st) /\
  (do source <- shared_ptr.move other;
   do r <- shared_ptr.static_pointer_cast static_cast (fst source);
   shared_ptr.dtor fuel (snd r);;
   ret (fst r, snd source)) st
    = Ok ((shared_ptr.mk (static_cast <$> shared_ptr._object other)
                         (shared_ptr._ctr other),
           shared_ptr.null), st) /\
  (do source <- shared_ptr.move other;
   do r <- shared_ptr.handle_cast fuel (fst source);
   shared_ptr.dtor fuel (snd r);;
   ret (fst r, snd source)) st
    = Ok ((other, shared_ptr.null), st).
Proof.
  destruct other as [o c]. split; [reflexivity|]. split; [reflexivity|].
  split; [reflexivity|]. split; [|split; reflexivity].
  intros p. unfold check_count, load_count, bind, deref, emit, ret. simpl.
  destruct (ctr_at p (heap st)) as [cnt|] eqn:H; [|reflexivity].
  cbn [heap]. rewrite H. cbn. rewrite N.eqb_refl. reflexivity.
Qed.

(** C8 as stated fails for a handle that the caller keeps: the argument of
    the cast is then a copy, so after [static_pointer_cast] (and after
    [handle_cast]) the count has gone from 1 to 2 and the source handle is
    as non-null as before. *)
Lemma cast_of_kept_handle_counterexample :
  (do n <- check_count (object_ctr 0);
   do other <- shared_ptr.copy first_handle;
   do r <- shared_ptr.static_pointer_cast (fun a => a) other;
   shared_ptr.dtor 2 (snd r);;
   do n' <- check_count (object_ctr 0);
   ret (n, n', fst r)) (demo_state 1)
    = Ok ((1, 2, first_handle),
          mk_state (demo_heap 2) 1%nat
                   [EvLoadCount (object_ctr 0); EvFetchAdd (object_ctr 0);
                    EvLoadCount (object_ctr 0)]) /\
  (do n <- check_count (object_ctr 0);
   do other <- shared_ptr.copy first_handle;
   do r <- shared_ptr.handle_cast 2 other;
   shared_ptr.dtor 2 (snd r);;
   do n' <- check_count (object_ctr 0);
   ret (n, n', fst r)) (demo_state 1)
    = Ok ((1, 2, first_handle),
          mk_state (demo_heap 2) 1%nat
                   [EvLoadCount (object_ctr 0); EvFetchAdd (object_ctr 0);
                    EvLoadCount (object_ctr 0)]) /\
  shared_ptr.to_bool first_handle = true.
Proof. repeat split. Qed.

(** ** [weak_ptr] *)

Lemma from_shared_null {T : Type} (ptr : shared_ptr.t) (st : state T) :
  shared_ptr._ctr ptr = None -> weak_ptr.from_shared ptr st = Undefined.
Proof.
  intros H. unfold weak_ptr.from_shared, weak_ptr.claim_holder, shared_ptr.ctr.
  cbn [weak_ptr._ctr]. rewrite H. reflexivity.
Qed.

(** C9.  The constructor of [weak_ptr] from a [shared_ptr] dereferences the
    counter pointer of its argument without a null check: from a null
    [shared_ptr] the run is undefined, it does not produce a null
    [weak_ptr].  From a counter without a holder the assertion fails.  So
    whenever the constructor returns, its argument was non-null and its
    counter had a holder. *)
Theorem weak_from_shared_needs_holder {T : Type} (ptr : shared_ptr.t) (st : state T) :
  (shared_ptr._ctr ptr = None -> weak_ptr.from_shared ptr st = Undefined) /\
  (forall c cnt,
     shared_ptr._ctr ptr = Some c -> ctr_at c (heap st) = Some cnt ->
     _holder cnt = None -> weak_ptr.from_shared ptr st = AssertFail) /\
  (forall w st',
     weak_ptr.from_shared ptr st = Ok (w, st') ->
     exists c cnt h,
       shared_ptr._ctr ptr = Some c /\
       ctr_at c (heap st) = Some cnt /\
       _holder cnt = Some h).
Proof.
  unfold weak_ptr.from_shared, weak_ptr.claim_holder, shared_ptr.ctr, holder.
  cbn [weak_ptr._ctr].
  split; [|split].
  - intros ->. reflexivity.
  - intros c cnt -> H Hh. unfold bind at 1 2. simpl.
    rewrite (load_holder_eq _ _ _ H). rewrite Hh. reflexivity.
  - intros w st'. destruct (shared_ptr._ctr ptr) as [c|]; [|discriminate].
    unfold bind at 1 2. simpl.
    destruct (ctr_at c (heap st)) as [cnt|] eqn:H.
    + rewrite (load_holder_eq _ _ _ H).
      destruct (_holder cnt) as [h|] eqn:Hh; [|discriminate].
      intros _. exists c, cnt, h. auto.
    + unfold load_holder, bind, deref. rewrite H. discriminate.
Qed.

Lemma weak_from_shared_needs_holder_witness :
  weak_ptr.from_shared shared_ptr.null (demo_state 1) = Undefined /\
  weak_ptr.from_shared (shared_ptr.mk (Some O) (Some (memory_ctr 0))) (demo_state 1)
    = AssertFail /\
  exists c cnt h,
    shared_ptr._ctr (shared_ptr.mk (Some O) (Some (object_ctr 0))) = Some c /\
    ctr_at c (heap (demo_state 1)) = Some cnt /\
    _holder cnt = Some h.
Proof.
  split; [|split].
  - apply (weak_from_shared_needs_holder shared_ptr.null (demo_state 1)).
    reflexivity.
  - apply (weak_from_shared_needs_holder
             (shared_ptr.mk (Some O) (Some (memory_ctr 0))) (demo_state 1))
      with (c := memory_ctr 0) (cnt := mk_counter None 1); reflexivity.
  - eapply (weak_from_shared_needs_holder
              (shared_ptr.mk (Some O) (Some (object_ctr 0))) (demo_state 1)).
    reflexivity.
Defined.

(** C2, the code at the copy constructor of [weak_ptr]: its member
    initialisers name [other.object] and [other.ctr], and [weak_ptr] has no
    such members (they are [_object] and [_ctr]), so for no handle, null or
    not, does the constructor denote a copy. *)
Theorem weak_copy_names_no_member {T : Type} (other : weak_ptr.t) :
  weak_ptr.member "object" other = None /\
  weak_ptr.member "ctr" other = None /\
  weak_ptr.member "_object" other
    = Some (weak_ptr.object_value (weak_ptr._object other)) /\
  weak_ptr.member "_ctr" other
    = Some (weak_ptr.ctr_value (weak_ptr._ctr other)) /\
  @weak_ptr.copy T other = None.
Proof. repeat split. Qed.

(** ** Programs: the counts follow the handles *)

(** ** Counting handles *)

Section ClaimsFacts.
Context {A : Type} (ctr : A -> option ctr_ptr).
Implicit Types (l : list A) (m : nat).

Lemma claims_app m l l' :
  claims ctr m (l ++ l') = claims ctr m l + claims ctr m l'.
Proof. induction l as [|x l IH]; simpl; [reflexivity|]. rewrite IH. lia. Qed.

Lemma claims_delete m l i x :
  l !! i = Some x ->
  claims ctr m (delete i l) + (if rides m (ctr x) then 1 else 0) = claims ctr m l.
Proof.
  revert i. induction l as [|y l IH]; intros [|i] H; simpl in *; try discriminate.
  - injection H as ->. lia.
  - specialize (IH i H). lia.
Qed.

Lemma claims_insert m l i x y :
  l !! i = Some x ->
  claims ctr m (<[i := y]> l) + (if rides m (ctr x) then 1 else 0)
    = claims ctr m l + (if rides m (ctr y) then 1 else 0).
Proof.
  revert i. induction l as [|z l IH]; intros [|i] H; simpl in *; try discriminate.
  - injection H as ->. lia.
  - specialize (IH i H). lia.
Qed.

Lemma claims_swap m l i j x y :
  l !! i = Some x -> l !! j = Some y ->
  claims ctr m (<[j := x]> (<[i := y]> l)) = claims ctr m l.
Proof.
  intros Hi Hj.
  pose proof (claims_insert m l i x y Hi) as H1.
  assert (<[i := y]> l !! j = Some y) as Hj'.
  { destruct (decide (i = j)) as [->|Hne].
    - apply list_lookup_insert_eq. apply lookup_lt_Some in Hi. exact Hi.
    - rewrite list_lookup_insert_ne by exact Hne. exact Hj. }
  pose proof (claims_insert m (<[i := y]> l) j y x Hj') as H2.
  lia.
Qed.

Lemma claims_pos m l i x :
  l !! i = Some x -> rides m (ctr x) = true -> 0 < claims ctr m l.
Proof.
  revert i. induction l as [|z l IH]; intros [|i] H Hr; simpl in *; try discriminate.
  - injection H as ->. rewrite Hr. lia.
  - specialize (IH i H Hr). lia.
Qed.

Lemma claims_le_length m l : claims ctr m l <= N.of_nat (length l).
Proof. induction l as [|x l IH]; simpl; [lia|]. destruct (rides m (ctr x)); lia. Qed.
End ClaimsFacts.

Lemma rides_object m m' : rides m (Some (object_ctr m')) = true <-> m = m'.
Proof. simpl. apply Nat.eqb_eq. Qed.

Lemma rides_object_ne m m' : m <> m' -> rides m (Some (object_ctr m')) = false.
Proof. simpl. apply Nat.eqb_neq. Qed.

Lemma ends_of_app m l l' : ends_of m (l ++ l') = ends_of m l ++ ends_of m l'.
Proof. unfold ends_of. apply List.filter_app. Qed.

(** ** The counters of a cell *)

Section CellFacts.
Context {T : Type}.
Implicit Types (st : state T) (h : gmap nat (meta_object T)) (m : nat)
  (b : box T).

Lemma set_ctr_object h m o c :
  h !! m = Some o ->
  set_ctr (object_ctr m) c h = <[m := mk_meta_object (memory_base o) c (_bx o)]> h.
Proof.
  intros H. apply map_eq. intros j. simpl.
  rewrite lookup_alter, lookup_insert.
  case_decide; [subst; rewrite H|]; reflexivity.
Qed.

Lemma set_ctr_memory h m o c :
  h !! m = Some o ->
  set_ctr (memory_ctr m) c h = <[m := mk_meta_object c (object_base o) (_bx o)]> h.
Proof.
  intros H. apply map_eq. intros j. simpl.
  rewrite lookup_alter, lookup_insert.
  case_decide; [subst; rewrite H|]; reflexivity.
Qed.

Lemma ctr_at_object h m mc oc b :
  h !! m = Some (cell_of m mc oc b) ->
  ctr_at (object_ctr m) h = Some (mk_counter (Some (memory_ctr m)) oc).
Proof. intros H. simpl. rewrite H. reflexivity. Qed.

Lemma ctr_at_memory h m mc oc b :
  h !! m = Some (cell_of m mc oc b) ->
  ctr_at (memory_ctr m) h = Some (mk_counter None mc).
Proof. intros H. simpl. rewrite H. reflexivity. Qed.

Lemma increment_object st m mc oc b :
  heap st !! m = Some (cell_of m mc oc b) ->
  oc <> 0 ->
  increment (object_ctr m) st =
    Ok (tt, mk_state (<[m := cell_of m mc (wrap (oc + 1)) b]> (heap st)) (brk st)
                     (log st ++ [EvFetchAdd (object_ctr m)])).
Proof.
  intros H Hnz. rewrite (increment_eq _ _ _ (ctr_at_object _ _ _ _ _ H)).
  cbn [_count _holder]. destruct (N.eqb_spec oc 0) as [|_]; [contradiction|].
  rewrite (set_ctr_object _ _ _ _ H). reflexivity.
Qed.

Lemma increment_memory st m mc oc b :
  heap st !! m = Some (cell_of m mc oc b) ->
  mc <> 0 ->
  increment (memory_ctr m) st =
    Ok (tt, mk_state (<[m := cell_of m (wrap (mc + 1)) oc b]> (heap st)) (brk st)
                     (log st ++ [EvFetchAdd (memory_ctr m)])).
Proof.
  intros H Hnz. rewrite (increment_eq _ _ _ (ctr_at_memory _ _ _ _ _ H)).
  cbn [_count _holder]. destruct (N.eqb_spec mc 0) as [|_]; [contradiction|].
  rewrite (set_ctr_memory _ _ _ _ H). reflexivity.
Qed.

Lemma holder_object st m mc oc b :
  heap st !! m = Some (cell_of m mc oc b) ->
  holder (object_ctr m) st =
    Ok (Some (memory_ctr m),
        mk_state (heap st) (brk st) (log st ++ [EvLoadHolder (object_ctr m)])).
Proof.
  intros H. unfold holder.
  rewrite (load_holder_eq _ _ _ (ctr_at_object _ _ _ _ _ H)). reflexivity.
Qed.

Lemma try_increment_object fuel st m mc oc b :
  heap st !! m = Some (cell_of m mc oc b) ->
  oc <> 0 ->
  increment_if_nonzero (S fuel) (object_ctr m) st =
    Ok (true,
        mk_state (<[m := cell_of m mc (wrap (oc + 1)) b]> (heap st)) (brk st)
                 (log st ++ [EvLoadCount (object_ctr m); EvCas (object_ctr m) true])).
Proof.
  intros H Hnz.
  rewrite (increment_if_nonzero_eq _ _ _ _ (ctr_at_object _ _ _ _ _ H)).
  cbn [_count _holder]. destruct (N.eqb_spec oc 0) as [|_]; [contradiction|].
  rewrite (set_ctr_object _ _ _ _ H). reflexivity.
Qed.

Lemma try_increment_object_dead fuel st m mc b :
  heap st !! m = Some (cell_of m mc 0 b) ->
  increment_if_nonzero (S fuel) (object_ctr m) st =
    Ok (false,
        mk_state (heap st) (brk st) (log st ++ [EvLoadCount (object_ctr m)])).
Proof.
  intros H.
  rewrite (increment_if_nonzero_eq _ _ _ _ (ctr_at_object _ _ _ _ _ H)).
  reflexivity.
Qed.

(** [delete this] on a cell both of whose counts are zero. *)
Lemma dispose_memory_eq st m b :
  heap st !! m = Some (cell_of m 0 0 b) ->
  crtp_dispose (memory_ctr m) st =
    Ok (tt, mk_state (delete m (heap st)) (brk st)
                     (log st ++ [EvLoadCount (object_ctr m);
                                 EvLoadCount (memory_ctr m);
                                 EvDelete m])).
Proof.
  intros H. unfold crtp_dispose, meta_dispose, meta_dispose_memory, counter_dtor.
  unfold bind at 1 2.
  rewrite (load_count_eq _ _ _ (ctr_at_object _ _ _ _ _ H)). simpl.
  unfold bind at 1 2.
  rewrite (load_count_eq (memory_ctr m) _ (mk_counter None 0))
    by (simpl; rewrite H; reflexivity).
  simpl. unfold operator_delete. simpl. rewrite H.
  rewrite <- !app_assoc. reflexivity.
Qed.

(** [_bx.destruct()] on a cell holding a value. *)
Lemma dispose_object_eq st m mc oc (v : T) :
  heap st !! m = Some (cell_of m mc oc (Some v)) ->
  crtp_dispose (object_ctr m) st =
    Ok (tt, mk_state (<[m := cell_of m mc oc None]> (heap st)) (brk st)
                     (log st ++ [EvDestruct m])).
Proof.
  intros H. unfold crtp_dispose, meta_dispose, meta_dispose_object, box_destruct.
  rewrite H. reflexivity.
Qed.
End CellFacts.

Section CascadeFacts.
Context {T : Type}.
Implicit Types (st : state T) (m : nat) (b : box T).

Lemma decrement_memory_shared fuel st m mc oc b :
  heap st !! m = Some (cell_of m mc oc b) ->
  1 < mc -> mc < uint_modulus ->
  decrement crtp_dispose (S fuel) (memory_ctr m) st =
    Ok (tt, mk_state (<[m := cell_of m (mc - 1) oc b]> (heap st)) (brk st)
                     (log st ++ [EvFetchSub (memory_ctr m)])).
Proof.
  intros H Hgt Hlt.
  rewrite (decrement_unfold _ _ _ _ _ (ctr_at_memory _ _ _ _ _ H)).
  cbn [_count _holder]. cbv zeta.
  destruct (N.ltb_spec 1 mc) as [_|]; [|lia].
  rewrite (set_ctr_memory _ _ _ _ H), uint_sub_1_pos by lia. reflexivity.
Qed.

Lemma decrement_memory_last fuel st m b :
  heap st !! m = Some (cell_of m 1 0 b) ->
  decrement crtp_dispose (S fuel) (memory_ctr m) st =
    Ok (tt, mk_state (delete m (heap st)) (brk st)
                     (log st ++ [EvFetchSub (memory_ctr m);
                                 EvLoadHolder (memory_ctr m);
                                 EvDispose (memory_ctr m);
                                 EvLoadCount (object_ctr m);
                                 EvLoadCount (memory_ctr m);
                                 EvDelete m])).
Proof.
  intros H.
  rewrite (decrement_unfold _ _ _ _ _ (ctr_at_memory _ _ _ _ _ H)).
  cbn [_count _holder]. cbv zeta. cbn [N.ltb N.eqb N.compare Pos.compare Pos.eqb].
  rewrite (set_ctr_memory _ _ _ _ H). cbn [heap brk log].
  unfold bind at 1.
  erewrite dispose_memory_eq
    by (cbn [heap]; rewrite lookup_insert_eq; reflexivity).
  cbn [heap brk log]. unfold ret.
  rewrite delete_insert_eq, <- app_assoc. reflexivity.
Qed.

Lemma decrement_object_shared fuel st m mc oc b :
  heap st !! m = Some (cell_of m mc oc b) ->
  1 < oc -> oc < uint_modulus ->
  decrement crtp_dispose (S fuel) (object_ctr m) st =
    Ok (tt, mk_state (<[m := cell_of m mc (oc - 1) b]> (heap st)) (brk st)
                     (log st ++ [EvFetchSub (object_ctr m)])).
Proof.
  intros H Hgt Hlt.
  rewrite (decrement_unfold _ _ _ _ _ (ctr_at_object _ _ _ _ _ H)).
  cbn [_count _holder]. cbv zeta.
  destruct (N.ltb_spec 1 oc) as [_|]; [|lia].
  rewrite (set_ctr_object _ _ _ _ H), uint_sub_1_pos by lia. reflexivity.
Qed.

(** The last claim on the object counter goes while the memory counter
    is still claimed elsewhere: the value is destructed, the cell stays. *)
Lemma decrement_object_last_observed fuel st m mc (v : T) :
  heap st !! m = Some (cell_of m mc 1 (Some v)) ->
  1 < mc -> mc < uint_modulus ->
  decrement crtp_dispose (S (S fuel)) (object_ctr m) st =
    Ok (tt, mk_state (<[m := cell_of m (mc - 1) 0 None]> (heap st)) (brk st)
                     (log st ++ [EvFetchSub (object_ctr m);
                                 EvLoadHolder (object_ctr m);
                                 EvDispose (object_ctr m);
                                 EvDestruct m;
                                 EvFetchSub (memory_ctr m)])).
Proof.
  intros H Hgt Hlt.
  rewrite (decrement_unfold _ _ _ _ _ (ctr_at_object _ _ _ _ _ H)).
  cbn [_count _holder]. cbv zeta. cbn [N.ltb N.eqb N.compare Pos.compare Pos.eqb].
  rewrite (set_ctr_object _ _ _ _ H). cbn [heap brk log memory_base _bx cell_of].
  unfold bind at 1.
  erewrite (dispose_object_eq _ m mc 0 v)
    by (cbn [heap]; rewrite lookup_insert_eq; reflexivity).
  cbn [heap brk log].
  erewrite (decrement_memory_shared _ _ m mc 0 None)
    by (cbn [heap]; try rewrite lookup_insert_eq; try reflexivity; assumption).
  cbn [heap brk log].
  rewrite !insert_insert_eq, <- !app_assoc. reflexivity.
Qed.

(** The last claim on the object counter goes and nothing else claims
    the memory counter: the value is destructed, then the cell freed. *)
Lemma decrement_object_last_alone fuel st m (v : T) :
  heap st !! m = Some (cell_of m 1 1 (Some v)) ->
  decrement crtp_dispose (S (S fuel)) (object_ctr m) st =
    Ok (tt, mk_state (delete m (heap st)) (brk st)
                     (log st ++ [EvFetchSub (object_ctr m);
                                 EvLoadHolder (object_ctr m);
                                 EvDispose (object_ctr m);
                                 EvDestruct m;
                                 EvFetchSub (memory_ctr m);
                                 EvLoadHolder (memory_ctr m);
                                 EvDispose (memory_ctr m);
                                 EvLoadCount (object_ctr m);
                                 EvLoadCount (memory_ctr m);
                                 EvDelete m])).
Proof.
  intros H.
  rewrite (decrement_unfold _ _ _ _ _ (ctr_at_object _ _ _ _ _ H)).
  cbn [_count _holder]. cbv zeta. cbn [N.ltb N.eqb N.compare Pos.compare Pos.eqb].
  rewrite (set_ctr_object _ _ _ _ H). cbn [heap brk log memory_base _bx cell_of].
  unfold bind at 1.
  erewrite (dispose_object_eq _ m 1 0 v)
    by (cbn [heap]; rewrite lookup_insert_eq; reflexivity).
  cbn [heap brk log].
  erewrite (decrement_memory_last _ _ m None)
    by (cbn [heap]; rewrite lookup_insert_eq; reflexivity).
  cbn [heap brk log].
  rewrite !delete_insert_eq, <- !app_assoc. reflexivity.
Qed.
End CascadeFacts.

(** ** The invariant of programs *)

Lemma and_then_Ok {T A B : Type} (r : result (A * state T)) (k : A -> state T -> B) x :
  and_then r k = Ok x -> exists a st, r = Ok (a, st) /\ x = k a st.
Proof.
  destruct r as [[a st]| | |]; simpl; intros H; try discriminate.
  injection H as <-. eauto.
Qed.

Lemma with_var_Ok {A B : Type} (l : list A) i (k : A -> result B) x :
  with_var l i k = Ok x -> exists v, l !! i = Some v /\ k v = Ok x.
Proof. unfold with_var. destruct (l !! i); [eauto|discriminate]. Qed.

Lemma on_object_ctr_None : on_object_ctr None.
Proof. intros m. discriminate. Qed.

Lemma on_object_ctr_object m : on_object_ctr (Some (object_ctr m)).
Proof. intros m'. discriminate. Qed.

Lemma on_object_ctr_inv c :
  on_object_ctr c -> c = None \/ exists m, c = Some (object_ctr m).
Proof.
  intros H. destruct c as [[m|m]|]; [destruct (H m eq_refl)|right; eauto|left; reflexivity].
Qed.

Section CellOk.
Context {T : Type}.
Implicit Types (o : option (meta_object T)) (s w : N) (e : list event).

Lemma cell_ok_strong m b o s w e :
  cell_ok m b o s w e -> 0 < s ->
  exists v, (m < b)%nat /\ o = Some (cell_of m (1 + w) s (Some v)) /\ e = [].
Proof. intros [| v | |] Hs; try lia. eauto. Qed.

Lemma cell_ok_weak m b o s w e :
  cell_ok m b o s w e -> 0 < w ->
  (exists v, (m < b)%nat /\ 0 < s /\
             o = Some (cell_of m (1 + w) s (Some v)) /\ e = []) \/
  ((m < b)%nat /\ s = 0 /\ o = Some (cell_of m w 0 None) /\ e = [EvDestruct m]).
Proof. intros [| v | |] Hw; try lia; [left; eauto|right; auto]. Qed.

Lemma cell_ok_fresh m o s w e :
  cell_ok m m o s w e -> o = None /\ s = 0 /\ w = 0 /\ e = [].
Proof. intros [| v | |]; try lia. auto. Qed.

Lemma cell_ok_grow m b o s w e :
  cell_ok m b o s w e -> m <> b -> cell_ok m (S b) o s w e.
Proof.
  intros [| v | |] Hne.
  - apply cell_unborn; auto. lia.
  - apply (cell_valued _ _ _ _ _ _ v); auto.
  - apply cell_hollow; auto.
  - apply cell_freed; auto.
Qed.
End CellOk.

Section StepInv.
Context {T Args : Type}.
Variable construct : Args -> T.
Implicit Types (pr : prog T) (st : state T).

Lemma inv_init : inv (@init T).
Proof.
  split.
  - intros m. unfold strong_on, weak_on, uint_modulus. simpl. lia.
  - constructor.
  - constructor.
  - intros m. apply cell_unborn; try reflexivity. simpl. lia.
Qed.

Lemma inv_strong_at pr i h :
  inv pr -> strong pr !! i = Some h ->
  shared_ptr._ctr h = None \/
  exists m v,
    shared_ptr._ctr h = Some (object_ctr m) /\
    0 < strong_on m pr /\
    heap (mem pr) !! m
      = Some (cell_of m (1 + weak_on m pr) (strong_on m pr) (Some v)) /\
    ends_of m (log (mem pr)) = [] /\
    strong_on m pr < uint_modulus /\ 1 + weak_on m pr < uint_modulus.
Proof.
  intros Hinv Hi.
  pose proof (Forall_lookup_1 _ _ _ _ (inv_strong _ Hinv) Hi) as Hc.
  destruct (on_object_ctr_inv _ Hc) as [Hn|[m Hm]]; [left; exact Hn|right].
  assert (0 < strong_on m pr) as Hpos.
  { eapply claims_pos; [exact Hi|]. rewrite Hm. apply rides_object. reflexivity. }
  destruct (cell_ok_strong _ _ _ _ _ _ (inv_cells _ Hinv m) Hpos) as (v & _ & Ho & He).
  destruct (inv_small _ Hinv m) as [Hs Hw].
  exists m, v. auto 10.
Qed.

Lemma inv_weak_at pr i h :
  inv pr -> weak pr !! i = Some h ->
  weak_ptr._ctr h = None \/
  exists m,
    weak_ptr._ctr h = Some (object_ctr m) /\
    0 < weak_on m pr /\
    strong_on m pr < uint_modulus /\ 1 + weak_on m pr < uint_modulus /\
    ((exists v,
        0 < strong_on m pr /\
        heap (mem pr) !! m
          = Some (cell_of m (1 + weak_on m pr) (strong_on m pr) (Some v)) /\
        ends_of m (log (mem pr)) = []) \/
     (strong_on m pr = 0 /\
      heap (mem pr) !! m = Some (cell_of m (weak_on m pr) 0 None) /\
      ends_of m (log (mem pr)) = [EvDestruct m])).
Proof.
  intros Hinv Hi.
  pose proof (Forall_lookup_1 _ _ _ _ (inv_weak _ Hinv) Hi) as Hc.
  destruct (on_object_ctr_inv _ Hc) as [Hn|[m Hm]]; [left; exact Hn|right].
  assert (0 < weak_on m pr) as Hpos.
  { eapply claims_pos; [exact Hi|]. rewrite Hm. apply rides_object. reflexivity. }
  destruct (inv_small _ Hinv m) as [Hs Hw].
  exists m. split; [exact Hm|]. split; [exact Hpos|]. split; [exact Hs|].
  split; [exact Hw|].
  destruct (cell_ok_weak _ _ _ _ _ _ (inv_cells _ Hinv m) Hpos)
    as [(v & _ & H1 & H2 & H3)|(_ & H1 & H2 & H3)]; [left; eauto|right; auto].
Qed.

(** An operation that touches the cell at [m0] at most. *)
Lemma inv_update pr pr' m0 :
  inv pr -> small pr' ->
  Forall (fun h => on_object_ctr (shared_ptr._ctr h)) (strong pr') ->
  Forall (fun h => on_object_ctr (weak_ptr._ctr h)) (weak pr') ->
  brk (mem pr') = brk (mem pr) ->
  (forall m, m <> m0 ->
     heap (mem pr') !! m = heap (mem pr) !! m /\
     strong_on m pr' = strong_on m pr /\
     weak_on m pr' = weak_on m pr /\
     ends_of m (log (mem pr')) = ends_of m (log (mem pr))) ->
  cell_ok m0 (brk (mem pr')) (heap (mem pr') !! m0)
          (strong_on m0 pr') (weak_on m0 pr') (ends_of m0 (log (mem pr'))) ->
  inv pr'.
Proof.
  intros Hinv Hsmall Hs Hw Hb Hframe Hcell.
  split; try assumption.
  intros m. destruct (decide (m = m0)) as [->|Hne]; [exact Hcell|].
  destruct (Hframe m Hne) as (-> & -> & -> & ->). rewrite Hb.
  apply (inv_cells _ Hinv).
Qed.

(** An operation that touches no cell. *)
Lemma inv_same pr pr' :
  inv pr -> small pr' ->
  Forall (fun h => on_object_ctr (shared_ptr._ctr h)) (strong pr') ->
  Forall (fun h => on_object_ctr (weak_ptr._ctr h)) (weak pr') ->
  brk (mem pr') = brk (mem pr) ->
  heap (mem pr') = heap (mem pr) ->
  (forall m, strong_on m pr' = strong_on m pr) ->
  (forall m, weak_on m pr' = weak_on m pr) ->
  (forall m, ends_of m (log (mem pr')) = ends_of m (log (mem pr))) ->
  inv pr'.
Proof.
  intros Hinv Hsmall Hs Hw Hb Hh Hso Hwo He.
  split; try assumption.
  intros m. rewrite Hb, Hh, Hso, Hwo, He. apply (inv_cells _ Hinv).
Qed.
End StepInv.

Section WeakFacts.
Context {T : Type}.
Implicit Types (st : state T) (m : nat) (b : box T).

Lemma from_shared_cell st ptr m mc oc b :
  shared_ptr._ctr ptr = Some (object_ctr m) ->
  heap st !! m = Some (cell_of m mc oc b) ->
  mc <> 0 ->
  weak_ptr.from_shared ptr st =
    Ok (weak_ptr.mk (shared_ptr._object ptr) (Some (object_ctr m)),
        mk_state (<[m := cell_of m (wrap (mc + 1)) oc b]> (heap st)) (brk st)
                 (log st ++ [EvLoadHolder (object_ctr m);
                             EvLoadHolder (object_ctr m);
                             EvFetchAdd (memory_ctr m)])).
Proof.
  intros Hc H Hnz.
  unfold weak_ptr.from_shared, weak_ptr.claim_holder, shared_ptr.ctr, shared_ptr.get.
  cbn [weak_ptr._ctr]. rewrite Hc. cbn [arrow]. unfold bind.
  rewrite (holder_object _ _ _ _ _ H). cbn.
  erewrite holder_object by (cbn [heap]; exact H). cbn [arrow].
  erewrite increment_memory by (cbn [heap]; try exact H; exact Hnz).
  cbn [heap brk log ret]. rewrite <- !app_assoc. reflexivity.
Qed.

Lemma weak_dtor_cell fuel st this m mc oc b :
  weak_ptr._ctr this = Some (object_ctr m) ->
  heap st !! m = Some (cell_of m mc oc b) ->
  weak_ptr.dtor fuel this st =
    decrement crtp_dispose fuel (memory_ctr m)
      (mk_state (heap st) (brk st)
                (log st ++ [EvLoadHolder (object_ctr m);
                            EvLoadHolder (object_ctr m)])).
Proof.
  intros Hc H. unfold weak_ptr.dtor. rewrite Hc. unfold bind.
  rewrite (holder_object _ _ _ _ _ H). cbn.
  erewrite holder_object by (cbn [heap]; exact H). cbn [arrow heap brk log].
  rewrite <- !app_assoc. reflexivity.
Qed.

Lemma lock_cell fuel st this m mc oc b :
  weak_ptr._ctr this = Some (object_ctr m) ->
  heap st !! m = Some (cell_of m mc oc b) ->
  oc <> 0 ->
  weak_ptr.lock (S fuel) this st =
    Ok (shared_ptr.mk (weak_ptr._object this) (Some (object_ctr m)),
        mk_state (<[m := cell_of m mc (wrap (oc + 1)) b]> (heap st)) (brk st)
                 (log st ++ [EvLoadCount (object_ctr m); EvCas (object_ctr m) true])).
Proof.
  intros Hc H Hnz. unfold weak_ptr.lock. rewrite Hc. unfold bind.
  rewrite (try_increment_object _ _ _ _ _ _ H Hnz). reflexivity.
Qed.

Lemma lock_cell_dead fuel st this m mc b :
  weak_ptr._ctr this = Some (object_ctr m) ->
  heap st !! m = Some (cell_of m mc 0 b) ->
  weak_ptr.lock (S fuel) this st =
    Ok (shared_ptr.null,
        mk_state (heap st) (brk st) (log st ++ [EvLoadCount (object_ctr m)])).
Proof.
  intros Hc H. unfold weak_ptr.lock. rewrite Hc. unfold bind.
  rewrite (try_increment_object_dead _ _ _ _ _ H). reflexivity.
Qed.
End WeakFacts.

Section StepCases.
Context {T Args : Type}.
Variable construct : Args -> T.
Implicit Types (pr : prog T) (st : state T).

Lemma strong_on_snoc pr st h w m :
  strong_on m (mk_prog st (strong pr ++ [h]) w)
    = strong_on m pr + (if rides m (shared_ptr._ctr h) then 1 else 0).
Proof. unfold strong_on. simpl. rewrite claims_app. simpl. lia. Qed.

Lemma weak_on_snoc pr st s h m :
  weak_on m (mk_prog st s (weak pr ++ [h]))
    = weak_on m pr + (if rides m (weak_ptr._ctr h) then 1 else 0).
Proof. unfold weak_on. simpl. rewrite claims_app. simpl. lia. Qed.

Lemma step_make_inv fuel args pr pr' :
  inv pr -> step construct fuel (op_make args) pr = Ok pr' -> small pr' -> inv pr'.
Proof.
  intros Hinv Hstep Hsmall. simpl in Hstep.
  rewrite make_shared_eq in Hstep. simpl in Hstep.
  injection Hstep as <-.
  set (m0 := brk (mem pr)) in *.
  destruct (cell_ok_fresh _ _ _ _ _ (inv_cells _ Hinv m0)) as (Ho & Hs & Hw & He).
  split.
  - exact Hsmall.
  - simpl. apply Forall_app. split; [apply (inv_strong _ Hinv)|].
    constructor; [apply on_object_ctr_object|constructor].
  - apply (inv_weak _ Hinv).
  - intros m. rewrite strong_on_snoc. cbn [mem weak heap brk log shared_ptr._ctr].
    unfold weak_on. cbn [weak]. fold (weak_on m pr).
    rewrite ends_of_app. cbn [ends_of List.filter is_end_of]. rewrite app_nil_r.
    destruct (decide (m = m0)) as [->|Hne].
    + rewrite lookup_insert_eq. rewrite (proj2 (rides_object m0 m0) eq_refl).
      rewrite Hs, Hw, He. unfold meta_get.
      apply (cell_valued _ _ _ _ _ _ (construct args)); try reflexivity; lia.
    + rewrite lookup_insert_ne by congruence.
      rewrite (rides_object_ne _ _ Hne), N.add_0_r.
      apply cell_ok_grow; [apply (inv_cells _ Hinv)|exact Hne].
Qed.

Lemma step_null_inv fuel pr pr' :
  inv pr -> step construct fuel op_null pr = Ok pr' -> small pr' -> inv pr'.
Proof.
  intros Hinv Hstep Hsmall. simpl in Hstep. injection Hstep as <-.
  apply (inv_same pr); try assumption; try reflexivity.
  - simpl. apply Forall_app. split; [apply (inv_strong _ Hinv)|].
    constructor; [apply on_object_ctr_None|constructor].
  - apply (inv_weak _ Hinv).
  - intros m. rewrite strong_on_snoc. simpl. lia.
Qed.

Lemma step_wnull_inv fuel pr pr' :
  inv pr -> step construct fuel op_wnull pr = Ok pr' -> small pr' -> inv pr'.
Proof.
  intros Hinv Hstep Hsmall. simpl in Hstep. injection Hstep as <-.
  apply (inv_same pr); try assumption; try reflexivity.
  - apply (inv_strong _ Hinv).
  - simpl. apply Forall_app. split; [apply (inv_weak _ Hinv)|].
    constructor; [apply on_object_ctr_None|constructor].
  - intros m. rewrite weak_on_snoc. simpl. lia.
Qed.

Lemma step_copy_inv fuel i pr pr' :
  inv pr -> step construct fuel (op_copy i) pr = Ok pr' -> small pr' -> inv pr'.
Proof.
  intros Hinv Hstep Hsmall. simpl in Hstep.
  apply with_var_Ok in Hstep as (other & Hi & Hstep).
  apply and_then_Ok in Hstep as (p & st' & Hcopy & ->).
  unfold shared_ptr.copy in Hcopy. cbn [shared_ptr._ctr] in Hcopy.
  destruct (inv_strong_at pr i other Hinv Hi)
    as [Hn|(m0 & v & Hc & Hpos & Hcell & He & Hs & Hw)].
  - rewrite Hn in Hcopy. injection Hcopy as <- <-.
    apply (inv_same pr); try assumption; try reflexivity.
    + simpl. apply Forall_app. split; [apply (inv_strong _ Hinv)|].
      constructor; [apply on_object_ctr_None|constructor].
    + apply (inv_weak _ Hinv).
    + intros m. rewrite strong_on_snoc. simpl. lia.
  - rewrite Hc in Hcopy. unfold bind in Hcopy.
    rewrite (increment_object _ _ _ _ _ Hcell) in Hcopy by lia.
    injection Hcopy as <- <-.
    pose proof (Hsmall m0) as [Hs' _]. rewrite strong_on_snoc in Hs'.
    cbn [shared_ptr._ctr] in Hs'.
    rewrite (proj2 (rides_object m0 m0) eq_refl) in Hs'.
    apply (inv_update pr _ m0); try assumption; try reflexivity.
    + simpl. apply Forall_app. split; [apply (inv_strong _ Hinv)|].
      constructor; [apply on_object_ctr_object|constructor].
    + apply (inv_weak _ Hinv).
    + intros m Hne. cbn [mem heap log]. rewrite lookup_insert_ne by congruence.
      rewrite strong_on_snoc. cbn [shared_ptr._ctr].
      rewrite (rides_object_ne _ _ Hne), N.add_0_r, ends_of_app.
      cbn [ends_of List.filter is_end_of]. rewrite app_nil_r. auto.
    + cbn [mem heap log brk]. rewrite lookup_insert_eq, strong_on_snoc.
      cbn [shared_ptr._ctr]. rewrite (proj2 (rides_object m0 m0) eq_refl).
      rewrite ends_of_app. cbn [ends_of List.filter is_end_of]. rewrite app_nil_r.
      fold (ends_of m0 (log (mem pr))). rewrite He.
      unfold weak_on. cbn [weak]. fold (weak_on m0 pr).
      rewrite (wrap_small _ Hs').
      destruct (cell_ok_strong _ _ _ _ _ _ (inv_cells _ Hinv m0) Hpos) as (_ & Hlt & _).
      apply (cell_valued _ _ _ _ _ _ v); try reflexivity; try lia.
Qed.

Lemma step_move_inv fuel i pr pr' :
  inv pr -> step construct fuel (op_move i) pr = Ok pr' -> small pr' -> inv pr'.
Proof.
  intros Hinv Hstep Hsmall. simpl in Hstep.
  apply with_var_Ok in Hstep as (other & Hi & Hstep).
  injection Hstep as <-.
  pose proof (Forall_lookup_1 _ _ _ _ (inv_strong _ Hinv) Hi) as Hc.
  apply (inv_same pr); try assumption; try reflexivity.
  - cbn [strong]. apply Forall_app. split.
    + apply Forall_insert; [apply (inv_strong _ Hinv)|apply on_object_ctr_None].
    + constructor; [exact Hc|constructor].
  - apply (inv_weak _ Hinv).
  - intros m. unfold strong_on. cbn [strong]. rewrite claims_app.
    pose proof (claims_insert shared_ptr._ctr m _ i other
                  (shared_ptr.mk None None) Hi) as Hins.
    cbn [claims shared_ptr._ctr shared_ptr.null] in *.
    cbn [rides] in Hins. lia.
Qed.

Lemma step_wmove_inv fuel i pr pr' :
  inv pr -> step construct fuel (op_wmove i) pr = Ok pr' -> small pr' -> inv pr'.
Proof.
  intros Hinv Hstep Hsmall. simpl in Hstep.
  apply with_var_Ok in Hstep as (other & Hi & Hstep).
  injection Hstep as <-.
  pose proof (Forall_lookup_1 _ _ _ _ (inv_weak _ Hinv) Hi) as Hc.
  apply (inv_same pr); try assumption; try reflexivity.
  - apply (inv_strong _ Hinv).
  - cbn [weak]. apply Forall_app. split.
    + apply Forall_insert; [apply (inv_weak _ Hinv)|apply on_object_ctr_None].
    + constructor; [exact Hc|constructor].
  - intros m. unfold weak_on. cbn [weak]. rewrite claims_app.
    pose proof (claims_insert weak_ptr._ctr m _ i other
                  (weak_ptr.mk None None) Hi) as Hins.
    cbn [claims weak_ptr._ctr weak_ptr.null] in *.
    cbn [rides] in Hins. lia.
Qed.

Lemma strong_on_mk m st (l : list shared_ptr.t) w :
  strong_on m (mk_prog st l w) = claims shared_ptr._ctr m l.
Proof. reflexivity. Qed.

Lemma weak_on_mk m st s (l : list weak_ptr.t) :
  weak_on m (mk_prog st s l) = claims weak_ptr._ctr m l.
Proof. reflexivity. Qed.

Lemma step_drop_inv fuel i pr pr' :
  inv pr -> (2 <= fuel)%nat ->
  step construct fuel (op_drop i) pr = Ok pr' -> small pr' -> inv pr'.
Proof.
  intros Hinv Hfuel Hstep Hsmall. simpl in Hstep.
  destruct fuel as [|[|fuel]]; [lia|lia|clear Hfuel].
  apply with_var_Ok in Hstep as (this & Hi & Hstep).
  apply and_then_Ok in Hstep as ([] & st' & Hdtor & ->).
  unfold shared_ptr.dtor in Hdtor.
  assert (Forall (fun h => on_object_ctr (shared_ptr._ctr h)) (delete i (strong pr)))
    as Hfs by (apply Forall_delete, (inv_strong _ Hinv)).
  destruct (inv_strong_at pr i this Hinv Hi)
    as [Hn|(m0 & v & Hc & Hpos & Hcell & He & Hs & Hw)].
  - rewrite Hn in Hdtor. injection Hdtor as <-.
    apply (inv_same pr); try assumption; try reflexivity.
    + apply (inv_weak _ Hinv).
    + intros m. pose proof (claims_delete shared_ptr._ctr m _ i this Hi) as Hd.
      rewrite Hn in Hd. cbn [rides] in Hd. rewrite strong_on_mk.
      unfold strong_on. lia.
  - rewrite Hc in Hdtor.
    pose proof (claims_delete shared_ptr._ctr m0 _ i this Hi) as Hd0.
    rewrite Hc, (proj2 (rides_object m0 m0) eq_refl) in Hd0.
    fold (strong_on m0 pr) in Hd0.
    assert (forall m, m <> m0 ->
              claims shared_ptr._ctr m (delete i (strong pr)) = strong_on m pr) as Hdne.
    { intros m Hne. pose proof (claims_delete shared_ptr._ctr m _ i this Hi) as Hd.
      rewrite Hc, (rides_object_ne _ _ Hne) in Hd. unfold strong_on. lia. }
    destruct (cell_ok_strong _ _ _ _ _ _ (inv_cells _ Hinv m0) Hpos) as (_ & Hlt & _).
    destruct (decide (1 < strong_on m0 pr)) as [Hmany|Hone].
    + rewrite (decrement_object_shared _ _ _ _ _ _ Hcell Hmany Hs) in Hdtor.
      injection Hdtor as <-.
      apply (inv_update pr _ m0); try assumption; try reflexivity.
      * apply (inv_weak _ Hinv).
      * intros m Hne. cbn [mem heap log]. rewrite lookup_insert_ne by congruence.
        rewrite strong_on_mk, (Hdne m Hne), ends_of_app.
        cbn [ends_of List.filter is_end_of]. rewrite app_nil_r. auto.
      * cbn [mem heap log brk]. rewrite lookup_insert_eq, ends_of_app.
        cbn [ends_of List.filter is_end_of]. rewrite app_nil_r.
        fold (ends_of m0 (log (mem pr))). rewrite He, strong_on_mk, weak_on_mk.
        fold (weak_on m0 pr).
        replace (strong_on m0 pr - 1)
          with (claims shared_ptr._ctr m0 (delete i (strong pr))) by lia.
        apply (cell_valued _ _ _ _ _ _ v); try reflexivity; try lia.
    + assert (strong_on m0 pr = 1) as Hs1 by lia.
      rewrite Hs1 in Hcell.
      destruct (decide (0 < weak_on m0 pr)) as [Hobs|Halone].
      * rewrite (decrement_object_last_observed _ _ _ _ _ Hcell) in Hdtor by lia.
        injection Hdtor as <-.
        apply (inv_update pr _ m0); try assumption; try reflexivity.
        -- apply (inv_weak _ Hinv).
        -- intros m Hne. cbn [mem heap log]. rewrite lookup_insert_ne by congruence.
           rewrite strong_on_mk, (Hdne m Hne), ends_of_app.
           cbn [ends_of List.filter is_end_of].
           rewrite (proj2 (Nat.eqb_neq m m0) Hne), app_nil_r. auto.
        -- cbn [mem heap log brk]. rewrite lookup_insert_eq, ends_of_app.
           cbn [ends_of List.filter is_end_of]. rewrite Nat.eqb_refl.
           fold (ends_of m0 (log (mem pr))). rewrite He, strong_on_mk, weak_on_mk.
           fold (weak_on m0 pr).
           replace (1 + weak_on m0 pr - 1) with (weak_on m0 pr) by lia.
           apply cell_hollow; try reflexivity; try lia.
      * assert (weak_on m0 pr = 0) as Hw0 by lia.
        rewrite Hw0 in Hcell. change (1 + 0) with 1 in Hcell.
        rewrite (decrement_object_last_alone _ _ _ _ Hcell) in Hdtor.
        injection Hdtor as <-.
        apply (inv_update pr _ m0); try assumption; try reflexivity.
        -- apply (inv_weak _ Hinv).
        -- intros m Hne. cbn [mem heap log]. rewrite lookup_delete_ne by congruence.
           rewrite strong_on_mk, (Hdne m Hne), ends_of_app.
           cbn [ends_of List.filter is_end_of].
           rewrite (proj2 (Nat.eqb_neq m m0) Hne), app_nil_r. auto.
        -- cbn [mem heap log brk]. rewrite lookup_delete_eq, ends_of_app.
           cbn [ends_of List.filter is_end_of]. rewrite Nat.eqb_refl.
           fold (ends_of m0 (log (mem pr))). rewrite He, strong_on_mk, weak_on_mk.
           fold (weak_on m0 pr).
           apply cell_freed; try reflexivity; try lia.
Qed.

Lemma step_weak_inv fuel i pr pr' :
  inv pr -> step construct fuel (op_weak i) pr = Ok pr' -> small pr' -> inv pr'.
Proof.
  intros Hinv Hstep Hsmall. simpl in Hstep.
  apply with_var_Ok in Hstep as (ptr & Hi & Hstep).
  apply and_then_Ok in Hstep as (w & st' & Hfrom & ->).
  destruct (inv_strong_at pr i ptr Hinv Hi)
    as [Hn|(m0 & v & Hc & Hpos & Hcell & He & Hs & Hw)].
  - rewrite (from_shared_null _ _ Hn) in Hfrom. discriminate.
  - rewrite (from_shared_cell _ _ _ _ _ _ Hc Hcell) in Hfrom by lia.
    injection Hfrom as <- <-.
    pose proof (Hsmall m0) as [_ Hw']. rewrite weak_on_snoc in Hw'.
    cbn [weak_ptr._ctr] in Hw'.
    rewrite (proj2 (rides_object m0 m0) eq_refl) in Hw'.
    destruct (cell_ok_strong _ _ _ _ _ _ (inv_cells _ Hinv m0) Hpos) as (_ & Hlt & _).
    apply (inv_update pr _ m0); try assumption; try reflexivity.
    + apply (inv_strong _ Hinv).
    + cbn [weak]. apply Forall_app. split; [apply (inv_weak _ Hinv)|].
      constructor; [apply on_object_ctr_object|constructor].
    + intros m Hne. cbn [mem heap log]. rewrite lookup_insert_ne by congruence.
      rewrite weak_on_snoc. cbn [weak_ptr._ctr].
      rewrite (rides_object_ne _ _ Hne), N.add_0_r, ends_of_app.
      cbn [ends_of List.filter is_end_of]. rewrite app_nil_r. auto.
    + cbn [mem heap log brk]. rewrite lookup_insert_eq, weak_on_snoc.
      cbn [weak_ptr._ctr]. rewrite (proj2 (rides_object m0 m0) eq_refl).
      rewrite ends_of_app. cbn [ends_of List.filter is_end_of]. rewrite app_nil_r.
      fold (ends_of m0 (log (mem pr))). rewrite He, strong_on_mk.
      fold (strong_on m0 pr).
      rewrite wrap_small by lia.
      replace (1 + weak_on m0 pr + 1) with (1 + (weak_on m0 pr + 1)) by lia.
      apply (cell_valued _ _ _ _ _ _ v); try reflexivity; try lia.
Qed.

Lemma step_lock_inv fuel i pr pr' :
  inv pr -> (2 <= fuel)%nat ->
  step construct fuel (op_lock i) pr = Ok pr' -> small pr' -> inv pr'.
Proof.
  intros Hinv Hfuel Hstep Hsmall. simpl in Hstep.
  destruct fuel as [|fuel]; [lia|clear Hfuel].
  apply with_var_Ok in Hstep as (this & Hi & Hstep).
  apply and_then_Ok in Hstep as (p & st' & Hlock & ->).
  destruct (inv_weak_at pr i this Hinv Hi)
    as [Hn|(m0 & Hc & Hpos & Hs & Hw & [(v & Hspos & Hcell & He)|(Hs0 & Hcell & He)])].
  - unfold weak_ptr.lock in Hlock. rewrite Hn in Hlock. injection Hlock as <- <-.
    apply (inv_same pr); try assumption; try reflexivity.
    + cbn [strong]. apply Forall_app. split; [apply (inv_strong _ Hinv)|].
      constructor; [apply on_object_ctr_None|constructor].
    + apply (inv_weak _ Hinv).
    + intros m. rewrite strong_on_snoc. simpl. lia.
  - rewrite (lock_cell _ _ _ _ _ _ _ Hc Hcell) in Hlock by lia.
    injection Hlock as <- <-.
    pose proof (Hsmall m0) as [Hs' _]. rewrite strong_on_snoc in Hs'.
    cbn [shared_ptr._ctr] in Hs'.
    rewrite (proj2 (rides_object m0 m0) eq_refl) in Hs'.
    destruct (cell_ok_strong _ _ _ _ _ _ (inv_cells _ Hinv m0) Hspos) as (_ & Hlt & _).
    apply (inv_update pr _ m0); try assumption; try reflexivity.
    + cbn [strong]. apply Forall_app. split; [apply (inv_strong _ Hinv)|].
      constructor; [apply on_object_ctr_object|constructor].
    + apply (inv_weak _ Hinv).
    + intros m Hne. cbn [mem heap log]. rewrite lookup_insert_ne by congruence.
      rewrite strong_on_snoc. cbn [shared_ptr._ctr].
      rewrite (rides_object_ne _ _ Hne), N.add_0_r, ends_of_app.
      cbn [ends_of List.filter is_end_of]. rewrite app_nil_r. auto.
    + cbn [mem heap log brk]. rewrite lookup_insert_eq, strong_on_snoc.
      cbn [shared_ptr._ctr]. rewrite (proj2 (rides_object m0 m0) eq_refl).
      rewrite ends_of_app. cbn [ends_of List.filter is_end_of]. rewrite app_nil_r.
      fold (ends_of m0 (log (mem pr))). rewrite He, weak_on_mk.
      fold (weak_on m0 pr).
      rewrite (wrap_small _ Hs').
      apply (cell_valued _ _ _ _ _ _ v); try reflexivity; try lia.
  - rewrite (lock_cell_dead _ _ _ _ _ _ Hc Hcell) in Hlock.
    injection Hlock as <- <-.
    apply (inv_same pr); try assumption; try reflexivity.
    + cbn [strong]. apply Forall_app. split; [apply (inv_strong _ Hinv)|].
      constructor; [apply on_object_ctr_None|constructor].
    + apply (inv_weak _ Hinv).
    + intros m. rewrite strong_on_snoc. simpl. lia.
    + intros m. cbn [mem log]. rewrite ends_of_app.
      cbn [ends_of List.filter is_end_of]. rewrite app_nil_r. reflexivity.
Qed.

Lemma step_wdrop_inv fuel i pr pr' :
  inv pr -> (2 <= fuel)%nat ->
  step construct fuel (op_wdrop i) pr = Ok pr' -> small pr' -> inv pr'.
Proof.
  intros Hinv Hfuel Hstep Hsmall. simpl in Hstep.
  destruct fuel as [|fuel]; [lia|clear Hfuel].
  apply with_var_Ok in Hstep as (this & Hi & Hstep).
  apply and_then_Ok in Hstep as ([] & st' & Hdtor & ->).
  assert (Forall (fun h => on_object_ctr (weak_ptr._ctr h)) (delete i (weak pr)))
    as Hfw by (apply Forall_delete, (inv_weak _ Hinv)).
  destruct (inv_weak_at pr i this Hinv Hi)
    as [Hn|(m0 & Hc & Hpos & Hs & Hw & Hphase)].
  - unfold weak_ptr.dtor in Hdtor. rewrite Hn in Hdtor. injection Hdtor as <-.
    apply (inv_same pr); try assumption; try reflexivity.
    + apply (inv_strong _ Hinv).
    + intros m. pose proof (claims_delete weak_ptr._ctr m _ i this Hi) as Hd.
      rewrite Hn in Hd. cbn [rides] in Hd. rewrite weak_on_mk.
      unfold weak_on. lia.
  - pose proof (claims_delete weak_ptr._ctr m0 _ i this Hi) as Hd0.
    rewrite Hc, (proj2 (rides_object m0 m0) eq_refl) in Hd0.
    fold (weak_on m0 pr) in Hd0.
    assert (forall m, m <> m0 ->
              claims weak_ptr._ctr m (delete i (weak pr)) = weak_on m pr) as Hdne.
    { intros m Hne. pose proof (claims_delete weak_ptr._ctr m _ i this Hi) as Hd.
      rewrite Hc, (rides_object_ne _ _ Hne) in Hd. unfold weak_on. lia. }
    assert ((m0 < brk (mem pr))%nat) as Hlt.
    { destruct (cell_ok_weak _ _ _ _ _ _ (inv_cells _ Hinv m0) Hpos)
        as [(? & ? & _)|(? & _)]; assumption. }
    destruct Hphase as [(v & Hspos & Hcell & He)|(Hs0 & Hcell & He)].
    + rewrite (weak_dtor_cell _ _ _ _ _ _ _ Hc Hcell) in Hdtor.
      erewrite decrement_memory_shared in Hdtor
        by (cbn [heap]; try exact Hcell; lia).
      injection Hdtor as <-.
      apply (inv_update pr _ m0); try assumption; try reflexivity.
      * apply (inv_strong _ Hinv).
      * intros m Hne. cbn [mem heap log]. rewrite lookup_insert_ne by congruence.
        rewrite weak_on_mk, (Hdne m Hne), !ends_of_app.
        cbn [ends_of List.filter is_end_of]. rewrite !app_nil_r. auto.
      * cbn [mem heap log brk]. rewrite lookup_insert_eq, !ends_of_app.
        cbn [ends_of List.filter is_end_of]. rewrite !app_nil_r.
        fold (ends_of m0 (log (mem pr))). rewrite He, strong_on_mk, weak_on_mk.
        fold (strong_on m0 pr).
        replace (1 + weak_on m0 pr - 1)
          with (1 + claims weak_ptr._ctr m0 (delete i (weak pr))) by lia.
        apply (cell_valued _ _ _ _ _ _ v); try reflexivity; try lia.
    + rewrite (weak_dtor_cell _ _ _ _ _ _ _ Hc Hcell) in Hdtor.
      destruct (decide (1 < weak_on m0 pr)) as [Hmany|Hone].
      * erewrite decrement_memory_shared in Hdtor
          by (cbn [heap]; try exact Hcell; lia).
        injection Hdtor as <-.
        apply (inv_update pr _ m0); try assumption; try reflexivity.
        -- apply (inv_strong _ Hinv).
        -- intros m Hne. cbn [mem heap log]. rewrite lookup_insert_ne by congruence.
           rewrite weak_on_mk, (Hdne m Hne), !ends_of_app.
           cbn [ends_of List.filter is_end_of]. rewrite !app_nil_r. auto.
        -- cbn [mem heap log brk]. rewrite lookup_insert_eq, !ends_of_app.
           cbn [ends_of List.filter is_end_of]. rewrite !app_nil_r.
           fold (ends_of m0 (log (mem pr))). rewrite He, strong_on_mk, weak_on_mk.
           fold (strong_on m0 pr). rewrite Hs0.
           replace (weak_on m0 pr - 1)
             with (claims weak_ptr._ctr m0 (delete i (weak pr))) by lia.
           apply cell_hollow; try reflexivity; try lia.
      * assert (weak_on m0 pr = 1) as Hw1 by lia.
        rewrite Hw1 in Hcell.
        erewrite decrement_memory_last in Hdtor by (cbn [heap]; exact Hcell).
        injection Hdtor as <-.
        apply (inv_update pr _ m0); try assumption; try reflexivity.
        -- apply (inv_strong _ Hinv).
        -- intros m Hne. cbn [mem heap log]. rewrite lookup_delete_ne by congruence.
           rewrite weak_on_mk, (Hdne m Hne), !ends_of_app.
           cbn [ends_of List.filter is_end_of].
           rewrite (proj2 (Nat.eqb_neq m m0) Hne), !app_nil_r. auto.
        -- cbn [mem heap log brk]. rewrite lookup_delete_eq, !ends_of_app.
           cbn [ends_of List.filter is_end_of]. rewrite Nat.eqb_refl, app_nil_r.
           fold (ends_of m0 (log (mem pr))). rewrite He, strong_on_mk, weak_on_mk.
           fold (strong_on m0 pr). rewrite Hs0.
           apply cell_freed; try reflexivity; try lia.
Qed.

Lemma step_swap_inv fuel i j pr pr' :
  inv pr -> step construct fuel (op_swap i j) pr = Ok pr' -> small pr' -> inv pr'.
Proof.
  intros Hinv Hstep Hsmall. cbn [step] in Hstep.
  apply with_var_Ok in Hstep as (x & Hi & Hstep).
  apply with_var_Ok in Hstep as (y & Hj & Hstep).
  cbn in Hstep. injection Hstep as <-.
  pose proof (Forall_lookup_1 _ _ _ _ (inv_strong _ Hinv) Hi) as Hx.
  pose proof (Forall_lookup_1 _ _ _ _ (inv_strong _ Hinv) Hj) as Hy.
  apply (inv_same pr); try assumption; try reflexivity.
  - cbn [strong]. apply Forall_insert; [apply Forall_insert|]; try assumption.
    apply (inv_strong _ Hinv).
  - apply (inv_weak _ Hinv).
  - intros m. rewrite strong_on_mk. unfold strong_on.
    destruct x as [xo xc], y as [yo yc]. cbn [shared_ptr._object shared_ptr._ctr].
    apply (claims_swap shared_ptr._ctr m _ i j _ _ Hi Hj).
Qed.

Lemma step_wswap_inv fuel i j pr pr' :
  inv pr -> step construct fuel (op_wswap i j) pr = Ok pr' -> small pr' -> inv pr'.
Proof.
  intros Hinv Hstep Hsmall. cbn [step] in Hstep.
  apply with_var_Ok in Hstep as (x & Hi & Hstep).
  apply with_var_Ok in Hstep as (y & Hj & Hstep).
  cbn in Hstep. injection Hstep as <-.
  pose proof (Forall_lookup_1 _ _ _ _ (inv_weak _ Hinv) Hi) as Hx.
  pose proof (Forall_lookup_1 _ _ _ _ (inv_weak _ Hinv) Hj) as Hy.
  apply (inv_same pr); try assumption; try reflexivity.
  - apply (inv_strong _ Hinv).
  - cbn [weak]. apply Forall_insert; [apply Forall_insert|]; try assumption.
    apply (inv_weak _ Hinv).
  - intros m. rewrite weak_on_mk. unfold weak_on.
    destruct x as [xo xc], y as [yo yc]. cbn [weak_ptr._object weak_ptr._ctr].
    apply (claims_swap weak_ptr._ctr m _ i j _ _ Hi Hj).
Qed.

(** Every operation of a program keeps the invariant. *)
Lemma step_inv fuel o pr pr' :
  inv pr -> (2 <= fuel)%nat ->
  step construct fuel o pr = Ok pr' -> small pr' -> inv pr'.
Proof.
  intros Hinv Hfuel Hstep Hsmall. destruct o.
  - eapply step_make_inv; eassumption.
  - eapply step_null_inv; eassumption.
  - eapply step_copy_inv; eassumption.
  - eapply step_move_inv; eassumption.
  - eapply step_drop_inv; eassumption.
  - eapply step_weak_inv; eassumption.
  - eapply step_wnull_inv; eassumption.
  - eapply step_wmove_inv; eassumption.
  - eapply step_wdrop_inv; eassumption.
  - eapply step_lock_inv; eassumption.
  - eapply step_swap_inv; eassumption.
  - eapply step_wswap_inv; eassumption.
Qed.

Lemma reachable_small_inv pr : reachable_small construct pr -> inv pr.
Proof.
  induction 1 as [|fuel o pr pr' _ IH Hfuel Hstep Hsmall].
  - apply inv_init.
  - eapply step_inv; eassumption.
Qed.
End StepCases.

Lemma in_ends_of m e l : is_end_of m e = true -> In e l <-> In e (ends_of m l).
Proof.
  intros He. unfold ends_of. rewrite List.filter_In. tauto.
Qed.

(** C3, as the code has it.  Take any state a program reaches through
    [make_shared], null constructions, [shared_ptr] copies, moves, swaps
    and destructions, [weak_ptr] constructions from a [shared_ptr],
    [weak_ptr] moves, swaps and destructions and [lock()], without a cell
    ever carrying [2^32] or more [shared_ptr]s or [2^32 - 1] or more
    [weak_ptr]s (so that no count wraps).  For every cell [m] the factory has made: while the
    cell is allocated its object counter reads the number of live
    [shared_ptr]s on it and its memory counter reads 1 plus the number of
    live [weak_ptr]s as long as a [shared_ptr] is left, and the number of
    live [weak_ptr]s afterwards; the box holds the value exactly while a
    [shared_ptr] is left; the value has been destructed exactly when no
    [shared_ptr] is left, the cell has been deallocated exactly when neither
    a [shared_ptr] nor a [weak_ptr] is left, each at most once and the
    destruction before the deallocation. *)
Theorem cell_counts_track_handles {T Args : Type} (construct : Args -> T)
    (pr : prog T) (m : nat) :
  reachable_small construct pr ->
  (m < brk (mem pr))%nat ->
  let s := strong_on m pr in
  let w := weak_on m pr in
  match heap (mem pr) !! m with
  | Some o =>
      _count (object_base o) = s /\
      _count (memory_base o) = (if N.eqb s 0 then w else 1 + w) /\
      _holder (object_base o) = Some (memory_ctr m) /\
      _holder (memory_base o) = None /\
      (is_Some (_bx o) <-> s <> 0)
  | None => s = 0 /\ w = 0
  end /\
  (heap (mem pr) !! m = None <-> s = 0 /\ w = 0) /\
  (In (EvDestruct m) (log (mem pr)) <-> s = 0) /\
  (In (EvDelete m) (log (mem pr)) <-> s = 0 /\ w = 0) /\
  ends_of m (log (mem pr)) =
    (if negb (N.eqb s 0) then []
     else if negb (N.eqb w 0) then [EvDestruct m]
     else [EvDestruct m; EvDelete m]).
Proof.
  intros Hreach Hm s w.
  pose proof (inv_cells _ (reachable_small_inv construct pr Hreach) m) as Hcell.
  fold s w in Hcell.
  rewrite (in_ends_of m (EvDestruct m)) by (simpl; apply Nat.eqb_refl).
  rewrite (in_ends_of m (EvDelete m)) by (simpl; apply Nat.eqb_refl).
  destruct Hcell as [Hb _ _ _ _ | v _ Hs Ho He | _ Hs Hw Ho He | _ Hs Hw Ho He];
    [lia| | | ]; rewrite Ho, He.
  - destruct (N.eqb_spec s 0) as [|_]; [lia|]. cbn.
    split; [|split; [|split; [|split]]].
    + repeat split; eauto; lia.
    + split; [discriminate|lia].
    + split; [intros []|lia].
    + split; [intros []|lia].
    + reflexivity.
  - rewrite Hs. destruct (N.eqb_spec w 0) as [|_]; [lia|]. cbn.
    split; [|split; [|split; [|split]]].
    + repeat split; auto; [intros [x Hx]; discriminate|intros Hf; destruct Hf; reflexivity].
    + split; [discriminate|lia].
    + split; auto.
    + split; [intros [Hf|[]]; discriminate|lia].
    + reflexivity.
  - rewrite Hs, Hw. cbn.
    split; [|split; [|split; [|split]]]; auto.
    + split; auto.
    + split; auto.
    + split; auto.
Qed.

(** ** Short programs stay small *)

Lemma length_delete_le {A : Type} (l : list A) i :
  (length (delete i l) <= length l)%nat.
Proof.
  revert i. induction l as [|x l IH]; intros [|i]; simpl; try lia.
  specialize (IH i). lia.
Qed.

Section ShortPrograms.
Context {T Args : Type}.
Variable construct : Args -> T.
Implicit Types (pr : prog T).

Lemma short_small pr :
  N.of_nat (length (strong pr)) < uint_modulus ->
  1 + N.of_nat (length (weak pr)) < uint_modulus ->
  small pr.
Proof.
  intros Hs Hw m. unfold strong_on, weak_on.
  pose proof (claims_le_length shared_ptr._ctr m (strong pr)).
  pose proof (claims_le_length weak_ptr._ctr m (weak pr)).
  lia.
Qed.

Lemma step_lengths fuel o pr pr' :
  step construct fuel o pr = Ok pr' ->
  (length (strong pr') <= S (length (strong pr)))%nat /\
  (length (weak pr') <= S (length (weak pr)))%nat.
Proof.
  intros Hstep. destruct o; simpl in Hstep;
    try (apply with_var_Ok in Hstep as (x & Hx & Hstep));
    try (apply with_var_Ok in Hstep as (y & Hy & Hstep));
    try (apply and_then_Ok in Hstep as (a & st & _ & ->));
    try (injection Hstep as <-);
    cbn [strong weak];
    rewrite ?length_app, ?length_insert; cbn [length];
    try (pose proof (length_delete_le (strong pr) i));
    try (pose proof (length_delete_le (weak pr) i));
    lia.
Qed.

Lemma run_short fuel ops pr pr' :
  reachable_small construct pr ->
  (2 <= fuel)%nat ->
  run construct fuel ops pr = Ok pr' ->
  N.of_nat (length (strong pr) + length ops) < uint_modulus ->
  1 + N.of_nat (length (weak pr) + length ops) < uint_modulus ->
  reachable_small construct pr'.
Proof.
  intros Hreach Hfuel. revert pr Hreach.
  induction ops as [|o ops IH]; intros pr Hreach Hrun Hs Hw; simpl in Hrun.
  - injection Hrun as <-. exact Hreach.
  - destruct (step construct fuel o pr) as [pr1| | |] eqn:Hstep; try discriminate.
    destruct (step_lengths _ _ _ _ Hstep) as [Hls Hlw]. cbn [length] in Hs, Hw.
    apply (IH pr1); [|exact Hrun|lia|lia].
    eapply reachable_small_step; [exact Hreach|exact Hfuel|exact Hstep|].
    apply short_small; lia.
Qed.
End ShortPrograms.

Lemma scenario_runs :
  run (fun _ : unit => tt) 2 scenario init = Ok scenario_end.
Proof. vm_compute. reflexivity. Qed.

Lemma scenario_reachable : reachable_small (fun _ : unit => tt) scenario_end.
Proof.
  apply (run_short (fun _ : unit => tt) 2 scenario init scenario_end);
    [apply reachable_small_init|lia|exact scenario_runs|reflexivity|reflexivity].
Qed.

Lemma cell_counts_track_handles_witness :
  reachable_small (fun _ : unit => tt) scenario_end /\
  ends_of 0 (log (mem scenario_end)) = [EvDestruct 0] /\
  heap (mem scenario_end) !! O = Some (cell_of 0 1 0 None).
Proof.
  split; [exact scenario_reachable|].
  destruct (cell_counts_track_handles (fun _ : unit => tt) scenario_end O
              scenario_reachable ltac:(unfold scenario_end; cbn [mem brk]; lia))
    as (_ & _ & _ & _ & He).
  split; [rewrite He; reflexivity|reflexivity].
Defined.

(** ** A count that wraps *)

Lemma claims_repeat {A : Type} (ctr : A -> option ctr_ptr) m x n :
  rides m (ctr x) = true -> claims ctr m (repeat x n) = N.of_nat n.
Proof.
  intros Hr. induction n as [|n IH]; [reflexivity|].
  cbn [repeat claims]. rewrite Hr, IH. lia.
Qed.

Lemma copies_prog_step n :
  1 + N.of_nat n < uint_modulus ->
  step (fun _ : unit => tt) 2 (op_copy 0) (copies_prog n) = Ok (copies_prog (S n)).
Proof.
  intros Hn. unfold copies_prog. cbn [step strong mem weak].
  unfold with_var. cbn [repeat lookup list_lookup].
  unfold shared_ptr.copy. cbn [shared_ptr._ctr first_handle shared_ptr._object].
  unfold bind.
  erewrite increment_object;
    [|cbn [heap]; apply lookup_insert_eq|rewrite wrap_small by exact Hn; lia].
  cbn [and_then ret heap brk log].
  rewrite insert_insert_eq. rewrite (wrap_small _ Hn).
  replace (1 + N.of_nat n + 1) with (1 + N.of_nat (S n)) by lia.
  rewrite <- app_assoc.
  rewrite <- (repeat_cons n (EvFetchAdd (object_ctr 0))).
  fold first_handle.
  change ((first_handle :: repeat first_handle n) ++ [first_handle])
    with (first_handle :: (repeat first_handle n ++ [first_handle])).
  rewrite <- (repeat_cons n first_handle).
  reflexivity.
Qed.

Lemma copies_prog_reachable n :
  N.of_nat n < uint_modulus -> reachable (fun _ : unit => tt) (copies_prog n).
Proof.
  induction n as [|n IH]; intros Hn.
  - apply (reachable_step _ 2 (op_make tt) init); [apply reachable_init|lia|reflexivity].
  - apply (reachable_step _ 2 (op_copy 0) (copies_prog n));
      [apply IH; lia|lia|apply copies_prog_step; lia].
Qed.

(** C3 as stated fails once [2^32] [shared_ptr]s ride on one cell: after
    [make_shared] and [2^32 - 1] copies the object counter has wrapped to 0
    while [2^32] handles are alive, and the value has not been destructed. *)
Lemma count_wraps_counterexample :
  exists pr : prog unit,
    reachable (fun _ : unit => tt) pr /\
    (O < brk (mem pr))%nat /\
    heap (mem pr) !! O = Some (cell_of 0 1 0 (Some tt)) /\
    strong_on 0 pr = 4294967296 /\
    ~ In (EvDestruct 0) (log (mem pr)).
Proof.
  assert (exists n, N.of_nat n = 4294967295) as [n Hn]
    by (exists (N.to_nat 4294967295); apply N2Nat.id).
  exists (copies_prog n). split; [|split; [|split; [|split]]].
  - apply copies_prog_reachable. rewrite Hn. reflexivity.
  - unfold copies_prog. cbn [mem brk]. lia.
  - unfold copies_prog. cbn [mem heap]. rewrite lookup_insert_eq, Hn. reflexivity.
  - unfold strong_on, copies_prog. cbn [strong].
    rewrite (claims_repeat shared_ptr._ctr O first_handle (S n) eq_refl). lia.
  - unfold copies_prog. cbn [mem log]. intros Hin.
    apply in_app_or in Hin as [Hin|Hin].
    + destruct Hin as [Hin|[Hin|[]]]; discriminate.
    + apply repeat_spec in Hin. discriminate.
Qed.

(** ** Programs do not abort *)

Section Progress.
Context {T Args : Type}.
Variable construct : Args -> T.
Implicit Types (pr : prog T).

(** From a state satisfying the invariant no operation fails an
    assertion, touches freed memory or runs out of fuel. *)
Lemma step_returns fuel o pr :
  inv pr -> (2 <= fuel)%nat -> well_formed o pr ->
  exists pr', step construct fuel o pr = Ok pr'.
Proof.
  intros Hinv Hfuel Hwf.
  destruct fuel as [|[|fuel]]; [lia|lia|clear Hfuel].
  destruct o as [args| |i|i|i|i| |i|i|i|i j|i j]; cbn [well_formed] in Hwf; cbn [step].
  - rewrite make_shared_eq. cbn [and_then]. eauto.
  - eauto.
  - destruct Hwf as [other Hi]. unfold with_var. rewrite Hi.
    unfold shared_ptr.copy. cbn [shared_ptr._ctr].
    destruct (inv_strong_at pr i other Hinv Hi)
      as [Hn|(m0 & v & Hc & Hpos & Hcell & He & Hs & Hw)].
    + rewrite Hn. cbn [ret and_then]. eauto.
    + rewrite Hc. unfold bind.
      rewrite (increment_object _ _ _ _ _ Hcell) by lia.
      cbn [ret and_then]. eauto.
  - destruct Hwf as [other Hi]. unfold with_var. rewrite Hi. cbn. eauto.
  - destruct Hwf as [this Hi]. unfold with_var. rewrite Hi.
    unfold shared_ptr.dtor.
    destruct (inv_strong_at pr i this Hinv Hi)
      as [Hn|(m0 & v & Hc & Hpos & Hcell & He & Hs & Hw)].
    + rewrite Hn. cbn [ret and_then]. eauto.
    + rewrite Hc.
      destruct (decide (1 < strong_on m0 pr)) as [Hmany|Hone].
      * rewrite (decrement_object_shared _ _ _ _ _ _ Hcell Hmany Hs).
        cbn [and_then]. eauto.
      * assert (strong_on m0 pr = 1) as Hs1 by lia. rewrite Hs1 in Hcell.
        destruct (decide (0 < weak_on m0 pr)) as [Hobs|Halone].
        -- rewrite (decrement_object_last_observed _ _ _ _ _ Hcell) by lia.
           cbn [and_then]. eauto.
        -- assert (weak_on m0 pr = 0) as Hw0 by lia.
           rewrite Hw0 in Hcell. change (1 + 0) with 1 in Hcell.
           rewrite (decrement_object_last_alone _ _ _ _ Hcell).
           cbn [and_then]. eauto.
  - destruct Hwf as (ptr & Hi & Hnn). unfold with_var. rewrite Hi.
    destruct (inv_strong_at pr i ptr Hinv Hi)
      as [Hn|(m0 & v & Hc & Hpos & Hcell & He & Hs & Hw)]; [contradiction|].
    rewrite (from_shared_cell _ _ _ _ _ _ Hc Hcell) by lia.
    cbn [and_then]. eauto.
  - eauto.
  - destruct Hwf as [other Hi]. unfold with_var. rewrite Hi. cbn. eauto.
  - destruct Hwf as [this Hi]. unfold with_var. rewrite Hi.
    destruct (inv_weak_at pr i this Hinv Hi)
      as [Hn|(m0 & Hc & Hpos & Hs & Hw & [(v & Hspos & Hcell & He)|(Hs0 & Hcell & He)])].
    + unfold weak_ptr.dtor. rewrite Hn. cbn [ret and_then]. eauto.
    + rewrite (weak_dtor_cell _ _ _ _ _ _ _ Hc Hcell).
      erewrite decrement_memory_shared by (cbn [heap]; try exact Hcell; lia).
      cbn [and_then]. eauto.
    + rewrite (weak_dtor_cell _ _ _ _ _ _ _ Hc Hcell).
      destruct (decide (1 < weak_on m0 pr)) as [Hmany|Hone].
      * erewrite decrement_memory_shared by (cbn [heap]; try exact Hcell; lia).
        cbn [and_then]. eauto.
      * assert (weak_on m0 pr = 1) as Hw1 by lia. rewrite Hw1 in Hcell.
        erewrite decrement_memory_last by (cbn [heap]; exact Hcell).
        cbn [and_then]. eauto.
  - destruct Hwf as [this Hi]. unfold with_var. rewrite Hi.
    destruct (inv_weak_at pr i this Hinv Hi)
      as [Hn|(m0 & Hc & Hpos & Hs & Hw & [(v & Hspos & Hcell & He)|(Hs0 & Hcell & He)])].
    + unfold weak_ptr.lock. rewrite Hn. cbn [ret and_then]. eauto.
    + rewrite (lock_cell _ _ _ _ _ _ _ Hc Hcell) by lia. cbn [and_then]. eauto.
    + rewrite (lock_cell_dead _ _ _ _ _ _ Hc Hcell). cbn [and_then]. eauto.
  - destruct Hwf as [[x Hi] [y Hj]]. unfold with_var. rewrite Hi, Hj. cbn. eauto.
  - destruct Hwf as [[x Hi] [y Hj]]. unfold with_var. rewrite Hi, Hj. cbn. eauto.
Qed.

(** X10.  Programs do not abort.  In every state a program reaches without
    a count wrapping, every operation on variables that exist (taking a
    [weak_ptr] from a non-null [shared_ptr] only) returns: no assertion of
    [increment], [decrement], [~counter] or the [weak_ptr] constructor and
    destructor fails, no freed counter is accessed, and a recursion depth
    of two is enough for every destructor. *)
Corollary reachable_small_step_returns fuel o pr :
  reachable_small construct pr -> (2 <= fuel)%nat -> well_formed o pr ->
  exists pr', step construct fuel o pr = Ok pr'.
Proof.
  intros Hreach. apply step_returns. apply (reachable_small_inv construct pr Hreach).
Qed.
End Progress.

(** ** Assignment as a program *)

Section Assignment.
Context {T Args : Type}.
Variable construct : Args -> T.
Implicit Types (pr : prog T).

Lemma snoc_swap_drop {A : Type} (l : list A) i (x y z : A) :
  (i < length l)%nat ->
  delete (length l) (<[length l := z]> (<[i := x]> (l ++ [y]))) = <[i := x]> l.
Proof.
  intros Hi.
  rewrite insert_app_l by exact Hi.
  replace (length l) with (length (<[i := x]> l) + 0)%nat at 1 2
    by (rewrite length_insert; lia).
  rewrite insert_app_r. cbn [insert list_insert].
  rewrite Nat.add_0_r.
  induction (<[i := x]> l) as [|a l' IH]; [reflexivity|].
  cbn. f_equal. exact IH.
Qed.

(** [p_i = p_j]: the parameter of [operator=] is copied from [p_j], swapped
    with [p_i] and destroyed.  As a program this is a copy into a new
    variable, a swap and a drop. *)
Lemma copy_assignment_as_program fuel i j pr this src :
  strong pr !! i = Some this ->
  strong pr !! j = Some src ->
  run construct fuel
      [op_copy j; op_swap i (length (strong pr)); op_drop (length (strong pr))] pr
  = and_then
      ((do other <- shared_ptr.copy src; shared_ptr.assign fuel this other) (mem pr))
      (fun p st => mk_prog st (<[i := p]> (strong pr)) (weak pr)).
Proof.
  intros Hi Hj.
  pose proof (lookup_lt_Some _ _ _ Hi) as Hlt.
  cbn [run step]. unfold with_var at 1. rewrite Hj. unfold bind at 1.
  destruct (shared_ptr.copy src (mem pr)) as [[other st1]| | |]; try reflexivity.
  cbn [and_then strong mem weak].
  unfold with_var. rewrite (lookup_app_l _ _ _ Hlt), Hi.
  rewrite (list_lookup_middle (strong pr) [] other (length (strong pr)) eq_refl).
  unfold shared_ptr.assign, shared_ptr.swap, bind, ret.
  cbn [and_then strong mem weak fst snd].
  rewrite list_lookup_insert_eq
    by (rewrite length_insert, length_app; cbn; lia).
  destruct (shared_ptr.dtor fuel _ st1) as [[[] st2]| | |]; try reflexivity.
  cbn [and_then]. rewrite snoc_swap_drop by exact Hlt. reflexivity.
Qed.
End Assignment.

(** * More of the code *)

(** ** [counter::setup], [holder], [check_count] *)

Lemma set_ctr_set_ctr {T : Type} p c1 c2 (h : gmap nat (meta_object T)) :
  set_ctr p c2 (set_ctr p c1 h) = set_ctr p c2 h.
Proof.
  apply map_eq. intros j. destruct p as [m|m]; cbn [set_ctr];
    (destruct (decide (m = j)) as [->|Hne];
     [ rewrite !lookup_alter_eq; destruct (h !! j); reflexivity
     | rewrite !lookup_alter_ne by exact Hne; reflexivity ]).
Qed.

(** X1.  [setup()] re-arms a counter only when its count is zero.  On a
    counter whose count is not zero the assertion fails.  On a count of zero
    it stores the new holder and the new count (as [unsigned int]) and
    nothing else: [holder()] and [check_count()] then read back what was
    set up. *)
Theorem setup_rearms_dead_counter {T : Type} (p : ctr_ptr) (st : state T)
    (c : counter) (h : option ctr_ptr) (n : N) :
  ctr_at p (heap st) = Some c ->
  (_count c <> 0 -> setup p h n st = AssertFail) /\
  (_count c = 0 ->
   let st' :=
     mk_state (set_ctr p (mk_counter h (n mod 2 ^ 32)) (heap st)) (brk st)
              (log st ++ [EvLoadCount p; EvStoreHolder p; EvStoreCount p]) in
   setup p h n st = Ok (tt, st') /\
   holder p st'
     = Ok (h, mk_state (heap st') (brk st') (log st' ++ [EvLoadHolder p])) /\
   check_count p st'
     = Ok (n mod 2 ^ 32, mk_state (heap st') (brk st') (log st' ++ [EvLoadCount p]))).
Proof.
  intros H. split.
  - intros Hnz. unfold setup. unfold bind at 1 2.
    rewrite (load_count_eq _ _ _ H). unfold assert_.
    destruct (N.eqb_spec (_count c) 0) as [|_]; [contradiction|reflexivity].
  - intros Hz st'. unfold setup. unfold bind at 1 2.
    rewrite (load_count_eq _ _ _ H). unfold assert_. rewrite Hz. cbn [N.eqb].
    assert (ctr_at p (heap st') = Some (mk_counter h (n mod 2 ^ 32))) as Hst'
      by (subst st'; cbn [heap]; eapply ctr_at_set_ctr_eq; exact H).
    split; [|split].
    + unfold store_holder, store_count, bind, deref, write, emit. cbn [heap brk log].
      rewrite H.
      cbn [heap brk log]. erewrite ctr_at_set_ctr_eq by exact H.
      cbn [_holder _count heap brk log]. rewrite set_ctr_set_ctr.
      subst st'. rewrite <- !app_assoc. reflexivity.
    + unfold holder. rewrite (load_holder_eq _ _ _ Hst'). reflexivity.
    + unfold check_count. rewrite (load_count_eq _ _ _ Hst'). reflexivity.
Qed.

Lemma setup_rearms_dead_counter_witness :
  setup (object_ctr 0) None 7 (demo_state 3) = AssertFail /\
  setup (object_ctr 0) None 4294967299 (demo_state 0)
    = Ok (tt, mk_state (<[O := mk_meta_object (mk_counter None 1) (mk_counter None 3)
                                 (Some tt)]> ∅) 1%nat
                       [EvLoadCount (object_ctr 0); EvStoreHolder (object_ctr 0);
                        EvStoreCount (object_ctr 0)]).
Proof.
  split.
  - apply (setup_rearms_dead_counter (object_ctr 0) (demo_state 3)
             (mk_counter (Some (memory_ctr 0)) 3) None 7 eq_refl).
    discriminate.
  - destruct (setup_rearms_dead_counter (object_ctr 0) (demo_state 0)
                (mk_counter (Some (memory_ctr 0)) 0) None 4294967299 eq_refl)
      as [_ Hz].
    destruct (Hz eq_refl) as [Hrun _]. rewrite Hrun. reflexivity.
Defined.

(** ** [counter::increment_if_nonzero] *)

Lemma cas_miss {T : Type} p (st : state T) c expected desired :
  ctr_at p (heap st) = Some c ->
  expected <> _count c ->
  compare_exchange_strong p expected desired st =
    Ok ((false, _count c),
        mk_state (heap st) (brk st) (log st ++ [EvCas p false])).
Proof.
  intros H Hne. unfold compare_exchange_strong, bind, deref. rewrite H.
  destruct (N.eqb_spec (_count c) expected) as [Heq|_]; [congruence|].
  reflexivity.
Qed.

(** X2.  [increment_if_nonzero()] never takes a claim on a counter whose
    count is zero: it returns [false] and writes nothing.  On a count that
    is not zero it returns [true] after one successful exchange to the count
    plus one.  This also holds when the loop starts from a stale value of
    the local [count] (another value than the counter holds): the failed
    exchange reloads it, and the next round decides on the count the
    counter really has. *)
Theorem increment_if_nonzero_never_resurrects {T : Type} (retries : nat)
    (p : ctr_ptr) (st : state T) (c : counter) :
  ctr_at p (heap st) = Some c ->
  (_count c = 0 ->
   increment_if_nonzero (S retries) p st
     = Ok (false, mk_state (heap st) (brk st) (log st ++ [EvLoadCount p])) /\
   forall stale, stale <> 0 ->
     increment_if_nonzero_loop (S (S retries)) p stale st
       = Ok (false, mk_state (heap st) (brk st) (log st ++ [EvCas p false]))) /\
  (_count c <> 0 ->
   let heap' :=
     set_ctr p (mk_counter (_holder c) ((_count c + 1) mod 2 ^ 32)) (heap st) in
   increment_if_nonzero (S retries) p st
     = Ok (true, mk_state heap' (brk st)
                          (log st ++ [EvLoadCount p; EvCas p true])) /\
   forall stale, stale <> 0 -> stale <> _count c ->
     increment_if_nonzero_loop (S (S retries)) p stale st
       = Ok (true, mk_state heap' (brk st)
                            (log st ++ [EvCas p false; EvCas p true]))).
Proof.
  intros H. rewrite (increment_if_nonzero_eq _ _ _ _ H). split.
  - intros Hz. rewrite Hz. split; [reflexivity|].
    intros stale Hs. cbn [increment_if_nonzero_loop].
    destruct (N.eqb_spec stale 0) as [|_]; [contradiction|].
    unfold bind. rewrite (cas_miss _ _ _ _ _ H) by congruence.
    cbn [fst snd]. rewrite Hz. reflexivity.
  - intros Hnz heap'. subst heap'.
    destruct (N.eqb_spec (_count c) 0) as [|_]; [contradiction|].
    split; [reflexivity|].
    intros stale Hs Hne. cbn [increment_if_nonzero_loop].
    destruct (N.eqb_spec stale 0) as [|_]; [contradiction|].
    unfold bind at 1. rewrite (cas_miss _ _ _ _ _ H) by exact Hne.
    cbn [fst snd].
    destruct (N.eqb_spec (_count c) 0) as [|_]; [contradiction|].
    unfold bind.
    rewrite (cas_hit p (mk_state (heap st) (brk st) (log st ++ [EvCas p false])) c
               (_count c + 1) H).
    cbn [fst heap brk log]. unfold ret. rewrite <- app_assoc. reflexivity.
Qed.

Lemma increment_if_nonzero_never_resurrects_witness :
  increment_if_nonzero_loop 2 (object_ctr 0) 5 (demo_state 0)
    = Ok (false, mk_state (demo_heap 0) 1%nat [EvCas (object_ctr 0) false]) /\
  increment_if_nonzero_loop 2 (object_ctr 0) 5 (demo_state 2)
    = Ok (true, mk_state (demo_heap 3) 1%nat
                         [EvCas (object_ctr 0) false; EvCas (object_ctr 0) true]).
Proof.
  split.
  - destruct (increment_if_nonzero_never_resurrects 0 (object_ctr 0) (demo_state 0)
                (mk_counter (Some (memory_ctr 0)) 0) eq_refl) as [Hz _].
    destruct (Hz eq_refl) as [_ Hstale].
    rewrite (Hstale 5 ltac:(discriminate)). reflexivity.
  - destruct (increment_if_nonzero_never_resurrects 0 (object_ctr 0) (demo_state 2)
                (mk_counter (Some (memory_ctr 0)) 2) eq_refl) as [_ Hnz].
    destruct (Hnz ltac:(discriminate)) as [_ Hstale].
    rewrite (Hstale 5 ltac:(discriminate) ltac:(discriminate)). reflexivity.
Defined.

(** ** The depth of the cascade *)

Section Depth.
Context {T : Type}.
Implicit Types (st : state T) (m : nat).

Lemma bind_not_OutOfFuel {A B : Type} (f : M T A) (g : A -> M T B) st :
  f st <> OutOfFuel -> (forall a st', g a st' <> OutOfFuel) ->
  bind f g st <> OutOfFuel.
Proof.
  intros Hf Hg. unfold bind. destruct (f st) as [[a st']| | |];
    [apply Hg|discriminate|discriminate|contradiction].
Qed.

Lemma load_count_not_OutOfFuel p st : load_count p st <> OutOfFuel.
Proof.
  unfold load_count, bind, deref. destruct (ctr_at p (heap st)); discriminate.
Qed.

Lemma counter_dtor_not_OutOfFuel p st : counter_dtor p st <> OutOfFuel.
Proof.
  unfold counter_dtor. apply bind_not_OutOfFuel; [apply load_count_not_OutOfFuel|].
  intros a st'. unfold assert_. destruct (N.eqb a 0); discriminate.
Qed.

Lemma crtp_dispose_not_OutOfFuel p st : crtp_dispose p st <> OutOfFuel.
Proof.
  destruct p as [m|m]; cbn [crtp_dispose meta_dispose].
  - unfold meta_dispose_memory.
    apply bind_not_OutOfFuel; [apply counter_dtor_not_OutOfFuel|intros _ st1].
    apply bind_not_OutOfFuel; [apply counter_dtor_not_OutOfFuel|intros _ st2].
    unfold operator_delete. destruct (heap st2 !! m); discriminate.
  - unfold meta_dispose_object, box_destruct.
    destruct (heap st !! m) as [o|]; [destruct (_bx o)|]; discriminate.
Qed.

(** A counter without a holder: one level. *)
Lemma decrement_no_holder fuel p st c :
  ctr_at p (heap st) = Some c -> _holder c = None ->
  decrement crtp_dispose (S fuel) p st = decrement crtp_dispose 1 p st /\
  decrement crtp_dispose 1 p st <> OutOfFuel.
Proof.
  intros H Hh. rewrite !(decrement_unfold _ _ _ _ _ H). rewrite Hh. cbv zeta.
  split; [reflexivity|].
  destruct (N.ltb 1 (_count c)); [discriminate|].
  destruct (N.eqb (_count c) 1); [|discriminate].
  apply bind_not_OutOfFuel; [apply crtp_dispose_not_OutOfFuel|].
  intros _ st'. discriminate.
Qed.

Lemma decrement_dangling fuel p st :
  ctr_at p (heap st) = None -> decrement crtp_dispose (S fuel) p st = Undefined.
Proof.
  intros H. simpl. unfold bind at 1. unfold fetch_sub, bind, deref.
  rewrite H. reflexivity.
Qed.
End Depth.

(** X3.  The recursion of [decrement()] through the holders is two deep
    for the counters of a [meta_object]: the object counter's holder is the
    memory counter, which has none.  Whatever the counts and the box, the
    outcome on the memory counter is the one of a single level and the
    outcome on the object counter the one of two levels, however much
    deeper the recursion were allowed to go; neither runs out of depth. *)
Theorem cascade_is_two_deep {T : Type} (fuel : nat) (m : nat) (mc oc : N)
    (b : box T) (st : state T) :
  heap st !! m = Some (cell_of m mc oc b) ->
  decrement crtp_dispose (S fuel) (memory_ctr m) st
    = decrement crtp_dispose 1 (memory_ctr m) st /\
  decrement crtp_dispose (S (S fuel)) (object_ctr m) st
    = decrement crtp_dispose 2 (object_ctr m) st /\
  decrement crtp_dispose 1 (memory_ctr m) st <> OutOfFuel /\
  decrement crtp_dispose 2 (object_ctr m) st <> OutOfFuel.
Proof.
  intros H.
  assert (ctr_at (memory_ctr m) (heap st) = Some (mk_counter None mc)) as Hm
    by (cbn; rewrite H; reflexivity).
  assert (ctr_at (object_ctr m) (heap st)
            = Some (mk_counter (Some (memory_ctr m)) oc)) as Ho
    by (cbn; rewrite H; reflexivity).
  destruct (decrement_no_holder fuel _ _ _ Hm eq_refl) as [Hm1 Hm2].
  split; [exact Hm1|]. split; [|split; [exact Hm2|]].
  - rewrite !(decrement_unfold _ _ _ _ _ Ho). cbv zeta. cbn [_holder _count].
    destruct (N.ltb 1 oc); [reflexivity|].
    destruct (N.eqb oc 1); [|reflexivity].
    unfold bind.
    destruct (crtp_dispose (object_ctr m) _) as [[[] st3]| | |] eqn:Hd;
      try reflexivity.
    destruct (ctr_at (memory_ctr m) (heap st3)) as [c|] eqn:Hc.
    + cbn [crtp_dispose meta_dispose] in Hd.
      unfold meta_dispose_object, box_destruct in Hd. cbn [heap] in Hd.
      rewrite (set_ctr_object _ _ _ _ H), lookup_insert_eq in Hd.
      cbn [_bx cell_of] in Hd. destruct b as [v|]; [|discriminate].
      injection Hd as <-. cbn [heap ctr_at] in Hc.
      rewrite lookup_insert_eq in Hc. injection Hc as <-.
      refine (proj1 (decrement_no_holder fuel _ _ (mk_counter None mc) _ eq_refl)).
      cbn [heap ctr_at]. rewrite lookup_insert_eq. reflexivity.
    + rewrite !decrement_dangling by exact Hc. reflexivity.
  - rewrite (decrement_unfold _ _ _ _ _ Ho). cbv zeta. cbn [_holder _count].
    destruct (N.ltb 1 oc); [discriminate|].
    destruct (N.eqb oc 1); [|discriminate].
    unfold bind.
    destruct (crtp_dispose (object_ctr m) _) as [[[] st3]| | |] eqn:Hd;
      try discriminate; [|destruct (crtp_dispose_not_OutOfFuel _ _ Hd)].
    cbn [crtp_dispose meta_dispose] in Hd.
    unfold meta_dispose_object, box_destruct in Hd. cbn [heap] in Hd.
    rewrite (set_ctr_object _ _ _ _ H), lookup_insert_eq in Hd.
    cbn [_bx cell_of] in Hd. destruct b as [v|]; [|discriminate].
    injection Hd as <-.
    refine (proj2 (decrement_no_holder 0 _ _ (mk_counter None mc) _ eq_refl)).
    cbn [heap ctr_at]. rewrite lookup_insert_eq. reflexivity.
Qed.

Lemma cascade_is_two_deep_witness :
  decrement crtp_dispose 7 (object_ctr 0) (demo_state 1)
    = decrement crtp_dispose 2 (object_ctr 0) (demo_state 1) /\
  decrement crtp_dispose 2 (object_ctr 0) (demo_state 1) <> OutOfFuel.
Proof.
  destruct (cascade_is_two_deep 5 O 1 1 (Some tt) (demo_state 1) eq_refl)
    as (_ & Hobj & _ & Hfuel).
  split; [exact Hobj | exact Hfuel].
Defined.

(** ** [~counter] inside [delete this] *)

(** X4.  [delete this] runs [~counter()] on both counter bases, and each
    asserts that its count is zero.  So the memory-facet disposal of a cell
    whose object counter is not zero fails the assertion instead of freeing
    the cell, and so does a [decrement()] that takes the memory counter from
    1 to 0 while the object counter is still claimed.  With both counts at
    zero the disposal frees the cell. *)
Theorem delete_this_asserts_counts_zero {T : Type} (fuel : nat) (m : nat)
    (mc oc : N) (b : box T) (st : state T) :
  heap st !! m = Some (cell_of m mc oc b) ->
  (oc <> 0 -> crtp_dispose (memory_ctr m) st = AssertFail) /\
  (oc = 0 -> mc <> 0 -> crtp_dispose (memory_ctr m) st = AssertFail) /\
  (oc <> 0 -> mc = 1 ->
   decrement crtp_dispose (S fuel) (memory_ctr m) st = AssertFail) /\
  (oc = 0 -> mc = 0 ->
   crtp_dispose (memory_ctr m) st
     = Ok (tt, mk_state (delete m (heap st)) (brk st)
                        (log st ++ [EvLoadCount (object_ctr m);
                                    EvLoadCount (memory_ctr m); EvDelete m]))).
Proof.
  intros H.
  assert (forall (st1 : state T) mc1,
            heap st1 !! m = Some (cell_of m mc1 oc b) -> oc <> 0 ->
            crtp_dispose (memory_ctr m) st1 = AssertFail) as Hobj.
  { intros st1 mc1 H1 Hnz.
    unfold crtp_dispose, meta_dispose, meta_dispose_memory, counter_dtor.
    unfold bind at 1 2.
    rewrite (load_count_eq _ _ _ (ctr_at_object _ _ _ _ _ H1)). cbn [_count].
    unfold assert_. destruct (N.eqb_spec oc 0) as [|_]; [contradiction|reflexivity]. }
  split; [|split; [|split]].
  - apply (Hobj st mc H).
  - intros -> Hnz.
    unfold crtp_dispose, meta_dispose, meta_dispose_memory, counter_dtor.
    unfold bind at 1 2.
    rewrite (load_count_eq _ _ _ (ctr_at_object _ _ _ _ _ H)). cbn [_count assert_ N.eqb].
    unfold bind at 1 2.
    erewrite load_count_eq by (cbn [heap]; exact (ctr_at_memory _ _ _ _ _ H)).
    cbn [_count]. unfold assert_.
    destruct (N.eqb_spec mc 0) as [|_]; [contradiction|reflexivity].
  - intros Hnz ->.
    rewrite (decrement_unfold _ _ _ _ _ (ctr_at_memory _ _ _ _ _ H)).
    cbv zeta. cbn [_count _holder N.ltb N.eqb N.compare Pos.compare Pos.eqb heap brk log].
    unfold bind.
    erewrite (Hobj _ (uint_sub 1 1)); [reflexivity| |exact Hnz].
    cbn [heap]. rewrite (set_ctr_memory _ _ _ _ H), lookup_insert_eq. reflexivity.
  - intros -> ->. apply (dispose_memory_eq _ _ _ H).
Qed.

Lemma delete_this_asserts_counts_zero_witness :
  decrement crtp_dispose 1 (memory_ctr 0) (demo_state 2) = AssertFail /\
  crtp_dispose (memory_ctr 0) (demo_state 0) = AssertFail.
Proof.
  split.
  - apply (delete_this_asserts_counts_zero 0 O 1 2 (Some tt) (demo_state 2) eq_refl);
      [discriminate|reflexivity].
  - apply (delete_this_asserts_counts_zero 0 O 1 0 (Some tt) (demo_state 0) eq_refl);
      [reflexivity|discriminate].
Defined.

(** ** Taking a claim and giving it back *)

Section RoundTrips.
Context {T : Type}.
Implicit Types (st : state T) (m : nat) (b : box T).

Lemma insert_back m (h : gmap nat (meta_object T)) x y :
  h !! m = Some x -> <[m := x]> (<[m := y]> h) = h.
Proof. intros H. rewrite insert_insert_eq. apply insert_id. exact H. Qed.
End RoundTrips.

(** X5.  Copying a [shared_ptr] and destroying the copy gives the claim
    back: every counter and the box are as before, and nothing was disposed
    (the log gains one [fetch_add] and one [fetch_sub]).  That needs room
    for one more claim: at a count of [2^32 - 1] the copy wraps the count
    to zero and the destructor of the copy then fails its assertion. *)
Theorem copy_then_destroy_restores {T : Type} (fuel : nat) (p : shared_ptr.t)
    (m : nat) (mc oc : N) (b : box T) (st : state T) :
  shared_ptr._ctr p = Some (object_ctr m) ->
  heap st !! m = Some (cell_of m mc oc b) ->
  oc <> 0 ->
  (oc + 1 < 2 ^ 32 ->
   (do q <- shared_ptr.copy p; shared_ptr.dtor (S fuel) q) st
     = Ok (tt, mk_state (heap st) (brk st)
                        (log st ++ [EvFetchAdd (object_ctr m);
                                    EvFetchSub (object_ctr m)]))) /\
  (oc = 2 ^ 32 - 1 ->
   (do q <- shared_ptr.copy p; shared_ptr.dtor (S fuel) q) st = AssertFail).
Proof.
  intros Hc H Hnz.
  assert ((do q <- shared_ptr.copy p; shared_ptr.dtor (S fuel) q) st
          = decrement crtp_dispose (S fuel) (object_ctr m)
              (mk_state (<[m := cell_of m mc (wrap (oc + 1)) b]> (heap st)) (brk st)
                        (log st ++ [EvFetchAdd (object_ctr m)]))) as ->.
  { unfold shared_ptr.copy, shared_ptr.dtor.
    cbn [shared_ptr._ctr]. rewrite Hc. unfold bind.
    rewrite (increment_object _ _ _ _ _ H Hnz). reflexivity. }
  split.
  - intros Hlt. rewrite wrap_small by exact Hlt.
    erewrite decrement_object_shared;
      [|cbn [heap]; apply lookup_insert_eq|lia|exact Hlt].
    cbn [heap brk log]. replace (oc + 1 - 1) with oc by lia.
    rewrite (insert_back _ _ _ _ H), <- app_assoc. reflexivity.
  - intros ->.
    erewrite decrement_unfold
      by (cbn [heap]; eapply ctr_at_object; apply lookup_insert_eq).
    reflexivity.
Qed.

Lemma copy_then_destroy_restores_witness :
  (do q <- shared_ptr.copy first_handle; shared_ptr.dtor 1 q) (demo_state 1)
    = Ok (tt, mk_state (demo_heap 1) 1%nat
                       [EvFetchAdd (object_ctr 0); EvFetchSub (object_ctr 0)]).
Proof.
  destruct (copy_then_destroy_restores 0 first_handle O 1 1 (Some tt) (demo_state 1)
              eq_refl eq_refl ltac:(discriminate)) as [Hok _].
  exact (Hok eq_refl).
Defined.

(** X6.  Taking a [weak_ptr] from a [shared_ptr] and destroying it gives the
    weak claim back: the memory counter went up by one and down by one, the
    object counter and the box were not touched and nothing was disposed. *)
Theorem weak_then_destroy_restores {T : Type} (fuel : nat) (ptr : shared_ptr.t)
    (m : nat) (mc oc : N) (b : box T) (st : state T) :
  shared_ptr._ctr ptr = Some (object_ctr m) ->
  heap st !! m = Some (cell_of m mc oc b) ->
  mc <> 0 ->
  mc + 1 < 2 ^ 32 ->
  (do w <- weak_ptr.from_shared ptr; weak_ptr.dtor (S fuel) w) st
    = Ok (tt, mk_state (heap st) (brk st)
                       (log st ++ [EvLoadHolder (object_ctr m);
                                   EvLoadHolder (object_ctr m);
                                   EvFetchAdd (memory_ctr m);
                                   EvLoadHolder (object_ctr m);
                                   EvLoadHolder (object_ctr m);
                                   EvFetchSub (memory_ctr m)])).
Proof.
  intros Hc H Hnz Hlt. unfold bind.
  rewrite (from_shared_cell _ _ _ _ _ _ Hc H Hnz).
  erewrite weak_dtor_cell;
    [|reflexivity|cbn [heap]; apply lookup_insert_eq].
  rewrite wrap_small by exact Hlt. cbn [heap brk log].
  erewrite decrement_memory_shared;
    [|cbn [heap]; apply lookup_insert_eq|lia|exact Hlt].
  cbn [heap brk log]. replace (mc + 1 - 1) with mc by lia.
  rewrite (insert_back _ _ _ _ H), <- !app_assoc. reflexivity.
Qed.

Lemma weak_then_destroy_restores_witness :
  exists l,
    (do w <- weak_ptr.from_shared first_handle; weak_ptr.dtor 1 w) (demo_state 1)
      = Ok (tt, mk_state (demo_heap 1) 1%nat l).
Proof.
  eexists.
  apply (weak_then_destroy_restores 0 first_handle O 1 1 (Some tt) (demo_state 1)
           eq_refl eq_refl); [discriminate|reflexivity].
Defined.

(** ** A temporary *)

(** X7.  A handle made by [make_shared] and destroyed at once leaves the
    heap as it was before the call: the value is constructed, destructed
    and its storage freed, in that order and each once, all within the one
    call of the destructor. *)
Theorem make_then_destroy_frees {T Args : Type} (construct : Args -> T)
    (fuel : nat) (args : Args) (st : state T) :
  heap st !! brk st = None ->
  let m := brk st in
  (do p <- make_shared construct args; shared_ptr.dtor (S (S fuel)) p) st
    = Ok (tt, mk_state (heap st) (S m)
                       (log st ++ [EvNew m; EvConstruct m;
                                   EvFetchSub (object_ctr m);
                                   EvLoadHolder (object_ctr m);
                                   EvDispose (object_ctr m);
                                   EvDestruct m;
                                   EvFetchSub (memory_ctr m);
                                   EvLoadHolder (memory_ctr m);
                                   EvDispose (memory_ctr m);
                                   EvLoadCount (object_ctr m);
                                   EvLoadCount (memory_ctr m);
                                   EvDelete m])).
Proof.
  intros Hfresh m. subst m. unfold bind. rewrite make_shared_eq.
  unfold shared_ptr.dtor. cbn [shared_ptr._ctr].
  erewrite decrement_object_last_alone by (cbn [heap]; apply lookup_insert_eq).
  cbn [heap brk log]. rewrite (delete_insert_id _ _ _ Hfresh), <- app_assoc.
  reflexivity.
Qed.

Lemma make_then_destroy_frees_witness :
  exists l,
    (do p <- make_shared (fun _ : unit => tt) tt; shared_ptr.dtor 2 p) (demo_state 1)
      = Ok (tt, mk_state (demo_heap 1) 2%nat l).
Proof.
  eexists.
  apply (make_then_destroy_frees (fun _ : unit => tt) 0 tt (demo_state 1)).
  reflexivity.
Defined.

(** ** [operator=] *)

(** X8.  Self-assignment is harmless.  [p = p] copies [p] into the
    parameter, swaps and destroys the parameter: [p] keeps its two pointers
    and every counter and the box are as before (one [fetch_add], one
    [fetch_sub], no disposal), provided the count has room for the copy. *)
Theorem self_assignment_keeps_claim {T : Type} (fuel : nat) (this : shared_ptr.t)
    (m : nat) (mc oc : N) (b : box T) (st : state T) :
  shared_ptr._ctr this = Some (object_ctr m) ->
  heap st !! m = Some (cell_of m mc oc b) ->
  oc <> 0 ->
  oc + 1 < 2 ^ 32 ->
  (do other <- shared_ptr.copy this; shared_ptr.assign (S fuel) this other) st
    = Ok (this, mk_state (heap st) (brk st)
                         (log st ++ [EvFetchAdd (object_ctr m);
                                     EvFetchSub (object_ctr m)])).
Proof.
  intros Hc H Hnz Hlt. destruct this as [o c]. cbn [shared_ptr._ctr] in Hc. subst c.
  unfold shared_ptr.copy, shared_ptr.assign, shared_ptr.swap, shared_ptr.dtor.
  cbn [shared_ptr._ctr shared_ptr._object]. unfold bind.
  rewrite (increment_object _ _ _ _ _ H Hnz). cbn [ret fst snd shared_ptr._ctr].
  rewrite wrap_small by exact Hlt.
  erewrite decrement_object_shared;
    [|cbn [heap]; apply lookup_insert_eq|lia|exact Hlt].
  cbn [heap brk log]. replace (oc + 1 - 1) with oc by lia.
  rewrite (insert_back _ _ _ _ H), <- app_assoc. reflexivity.
Qed.

Lemma self_assignment_keeps_claim_witness :
  (do other <- shared_ptr.copy first_handle;
   shared_ptr.assign 1 first_handle other) (demo_state 1)
    = Ok (first_handle,
          mk_state (demo_heap 1) 1%nat
                   [EvFetchAdd (object_ctr 0); EvFetchSub (object_ctr 0)]).
Proof.
  apply (self_assignment_keeps_claim 0 first_handle O 1 1 (Some tt) (demo_state 1)
           eq_refl eq_refl); [discriminate|reflexivity].
Defined.

Lemma insert_insert_same {A : Type} (l : list A) (i : nat) (x y : A) :
  l !! i = Some y -> <[i := y]> (<[i := x]> l) = l.
Proof.
  revert i. induction l as [|a l IH]; intros [|i] H; try discriminate.
  - cbn in *. congruence.
  - cbn in *. f_equal. apply IH. exact H.
Qed.

(** X9.  Move-assignment between two variables hands the claim over.
    [p_i = std::move(p_j)] with two different variables is the destructor
    run on the old content of [p_i], after which [p_i] holds the two
    pointers [p_j] held and [p_j] is null.  With one and the same variable,
    [p_i = std::move(p_i)] runs no destructor and accesses no counter: the
    state and every variable are as before.  The same holds for
    [weak_ptr]. *)
Theorem move_assignment_hands_over {T : Type} (fuel i j : nat) (pr : prog T) :
  (forall p q : shared_ptr.t,
     strong pr !! i = Some p ->
     strong pr !! j = Some q ->
     move_assign fuel i j pr
     = if decide (i = j) then Ok pr
       else and_then (shared_ptr.dtor fuel p (mem pr))
              (fun _ st =>
                 mk_prog st (<[i := q]> (<[j := shared_ptr.null]> (strong pr)))
                         (weak pr))) /\
  (forall p q : weak_ptr.t,
     weak pr !! i = Some p ->
     weak pr !! j = Some q ->
     weak_move_assign fuel i j pr
     = if decide (i = j) then Ok pr
       else and_then (weak_ptr.dtor fuel p (mem pr))
              (fun _ st =>
                 mk_prog st (strong pr)
                         (<[i := q]> (<[j := weak_ptr.null]> (weak pr))))).
Proof.
  destruct pr as [st ss ws]. cbn [strong weak mem].
  split; intros [po pc] [qo qc] Hi Hj.
  - pose proof (lookup_lt_Some _ _ _ Hj) as Hlt.
    unfold move_assign, with_var. cbn [strong weak mem]. rewrite Hj.
    unfold shared_ptr.move, shared_ptr.swap, ret.
    cbn [shared_ptr._object shared_ptr._ctr shared_ptr.null fst snd].
    destruct (decide (i = j)) as [->|Hne].
    + rewrite list_lookup_insert_eq by exact Hlt.
      unfold shared_ptr.assign, shared_ptr.swap, shared_ptr.dtor, bind, ret.
      cbn [shared_ptr._object shared_ptr._ctr fst snd and_then].
      rewrite insert_insert_same by exact Hj. reflexivity.
    + rewrite list_lookup_insert_ne by congruence. rewrite Hi.
      unfold shared_ptr.assign, shared_ptr.swap, bind, ret.
      cbn [shared_ptr._object shared_ptr._ctr fst snd].
      destruct (shared_ptr.dtor fuel _ st) as [[[] st']| | |]; reflexivity.
  - pose proof (lookup_lt_Some _ _ _ Hj) as Hlt.
    unfold weak_move_assign, with_var. cbn [strong weak mem]. rewrite Hj.
    unfold weak_ptr.move, weak_ptr.swap, ret.
    cbn [weak_ptr._object weak_ptr._ctr weak_ptr.null fst snd].
    destruct (decide (i = j)) as [->|Hne].
    + rewrite list_lookup_insert_eq by exact Hlt.
      unfold weak_ptr.assign, weak_ptr.swap, weak_ptr.dtor, bind, ret.
      cbn [weak_ptr._object weak_ptr._ctr fst snd and_then].
      rewrite insert_insert_same by exact Hj. reflexivity.
    + rewrite list_lookup_insert_ne by congruence. rewrite Hi.
      unfold weak_ptr.assign, weak_ptr.swap, bind, ret.
      cbn [weak_ptr._object weak_ptr._ctr fst snd].
      destruct (weak_ptr.dtor fuel _ st) as [[[] st']| | |]; reflexivity.
Qed.

(** Two handles on one cell with count 2, and two weak handles beside the
    latent claim: moving the second into the first gives up one claim;
    moving a variable into itself changes nothing. *)
Lemma move_assignment_hands_over_witness :
  let st := mk_state {[ O := cell_of O 3 2 (Some tt) ]} 1%nat [] in
  let w := weak_ptr.mk (Some O) (Some (object_ctr 0)) in
  let pr := mk_prog st [first_handle; first_handle] [w; w] in
  move_assign 2 0 1 pr
    = Ok (mk_prog (mk_state {[ O := cell_of O 3 1 (Some tt) ]} 1%nat
                            [EvFetchSub (object_ctr 0)])
                  [first_handle; shared_ptr.null] [w; w]) /\
  move_assign 2 1 1 pr = Ok pr /\
  weak_move_assign 2 0 1 pr
    = Ok (mk_prog (mk_state {[ O := cell_of O 2 2 (Some tt) ]} 1%nat
                            [EvLoadHolder (object_ctr 0);
                             EvLoadHolder (object_ctr 0);
                             EvFetchSub (memory_ctr 0)])
                  [first_handle; first_handle] [w; weak_ptr.null]) /\
  weak_move_assign 2 1 1 pr = Ok pr.
Proof.
  intros st w pr.
  split; [|split; [|split]].
  - rewrite (proj1 (move_assignment_hands_over 2 0 1 pr)
               first_handle first_handle eq_refl eq_refl).
    vm_compute. reflexivity.
  - rewrite (proj1 (move_assignment_hands_over 2 1 1 pr)
               first_handle first_handle eq_refl eq_refl).
    reflexivity.
  - rewrite (proj2 (move_assignment_hands_over 2 0 1 pr) w w eq_refl eq_refl).
    vm_compute. reflexivity.
  - rewrite (proj2 (move_assignment_hands_over 2 1 1 pr) w w eq_refl eq_refl).
    reflexivity.
Defined.

(** ** Handles of a program *)



Section Shapes.
Context {T : Type}.
Implicit Types (st : state T).



End Shapes.

Section Paired.
Context {T Args : Type}.
Variable construct : Args -> T.
Implicit Types (pr : prog T).



End Paired.

Section ProgramFacts.
Context {T Args : Type}.
Variable construct : Args -> T.
Implicit Types (pr : prog T).




End ProgramFacts.







(** ** Casting an lvalue *)

(** X14.  A cast takes its argument by value.  Called on a handle that is
    kept, the argument is a copy, the cast takes the claim of that copy and
    the emptied argument is destroyed: in every state the whole call is one
    copy, with the value pointer converted by [static_pointer_cast] and
    kept by [handle_cast].  The kept handle loses nothing and the counter
    gains exactly the one claim the result holds. *)
Theorem cast_of_a_copy_is_a_copy {T : Type} (fuel : nat)
    (static_cast : nat -> nat) (p : shared_ptr.t) (st : state T) :
  (do other <- shared_ptr.copy p;
   do r <- shared_ptr.static_pointer_cast static_cast other;
   shared_ptr.dtor fuel (snd r);;
   ret (fst r)) st
  = (do q <- shared_ptr.copy p;
     ret (shared_ptr.mk (static_cast <$> shared_ptr._object q)
                        (shared_ptr._ctr q))) st /\
  (do other <- shared_ptr.copy p;
   do r <- shared_ptr.handle_cast fuel other;
   shared_ptr.dtor fuel (snd r);;
   ret (fst r)) st
  = shared_ptr.copy p st.
Proof.
  destruct p as [o [c|]]; unfold shared_ptr.copy; cbn [shared_ptr._ctr shared_ptr._object].
  - unfold shared_ptr.static_pointer_cast, shared_ptr.handle_cast, shared_ptr.release,
      shared_ptr.adopt, shared_ptr.move, shared_ptr.swap, shared_ptr.dtor, bind, ret.
    cbn [shared_ptr._ctr shared_ptr._object shared_ptr.null fst snd].
    destruct (increment c st) as [[[] st1]| | |]; split; reflexivity.
  - split; reflexivity.
Qed.

(** ** Programs keep running *)

Lemma reachable_small_step_returns_witness :
  exists pr',
    step (fun _ : unit => tt) 2 (op_wdrop 0) scenario_end = Ok pr'.
Proof.
  apply (reachable_small_step_returns (fun _ : unit => tt) 2 (op_wdrop 0) scenario_end
           scenario_reachable).
  - lia.
  - eexists. reflexivity.
Defined.
